(** * A data-wrangling pipeline over an in-memory table

    Shallow embedding of [1_pandas.py].  The script is a straight line of
    calls on one data frame; every stage is embedded as a function on an
    explicit table value, in-place mutation as state passing, and a raising
    call as a result in the [exn] monad.

    Conventions of the embedding:
    - a 64-bit float is a rational number kept in lowest terms ([Qred]), so
      that every number has one representation, and its arithmetic is the
      exact one; every constant of the script and every value derived from
      them below is exactly representable, and every general statement that
      depends on float arithmetic is made for columns on which the 64-bit
      operations of the script do not round ([small_integers],
      [representable], [fits_int64] below);
    - the float NaN, [None] and a missing category label are the one missing
      scalar [NaN];
    - a frame is the ordered list of its named columns. *)

From Stdlib Require Import String ZArith QArith Qround Bool Arith Lia Lqa.
From Stdlib Require Import List Permutation Sorted ZifyNat.
Import ListNotations.

(** [lia] reasons on the integer divisions of positions by 2 and by 4. *)
Ltac Zify.zify_post_hook ::= Z.to_euclidean_division_equations.

Local Open Scope string_scope.
Local Open Scope list_scope.
Local Open Scope nat_scope.

(** ** Exceptions *)

Inductive error : Type :=
| KeyError (key : string)
| TypeError (msg : string)
| ValueError (msg : string).

Inductive exn (A : Type) : Type :=
| Ok (a : A)
| Raise (e : error).
Arguments Ok {A} a.
Arguments Raise {A} e.

Definition bind {A B : Type} (m : exn A) (k : A -> exn B) : exn B :=
  match m with
  | Ok a => k a
  | Raise e => Raise e
  end.

Notation "x <- m ;; k" := (bind m (fun x => k))
  (at level 61, m at next level, right associativity).

(** ** Scalars, series and frames *)

Inductive scalar : Type :=
| NaN
| Float (q : Q)
| Int (z : Z)
| Obj (s : string).

Abbreviation Series := (list scalar).
Abbreviation DataFrame := (list (string * Series)).

Definition isna (c : scalar) : bool :=
  match c with NaN => true | _ => false end.

Definition notna (c : scalar) : bool := negb (isna c).

(** Equality of two scalars as the hash tables behind [duplicated] and
    [merge] see it: numbers by value (the integer 1 equals the float 1.0),
    and a missing value equal to a missing value. *)
Definition scalar_eqb (a b : scalar) : bool :=
  match a, b with
  | NaN, NaN => true
  | Float p, Float q => Qeq_bool p q
  | Int x, Int y => Z.eqb x y
  | Float p, Int y => Qeq_bool p (inject_Z y)
  | Int x, Float q => Qeq_bool (inject_Z x) q
  | Obj s, Obj t => String.eqb s t
  | _, _ => false
  end.

(** [df[name]]: the first column of that name, [KeyError] when absent. *)
Fixpoint getitem (df : DataFrame) (name : string) : exn Series :=
  match df with
  | [] => Raise (KeyError name)
  | (n, s) :: rest => if String.eqb n name then Ok s else getitem rest name
  end.

(** [df[name] = s]: overwrite the column in place, or append a new one. *)
Fixpoint setitem (df : DataFrame) (name : string) (s : Series) : DataFrame :=
  match df with
  | [] => [(name, s)]
  | (n, c) :: rest =>
      if String.eqb n name then (n, s) :: rest
      else (n, c) :: setitem rest name s
  end.

Definition nrows (df : DataFrame) : nat :=
  match df with
  | [] => 0
  | (_, s) :: _ => length s
  end.

(** The row at position [i], one scalar per column ([df.iloc[i]]). *)
Definition iloc (df : DataFrame) (i : nat) : list scalar :=
  map (fun col => nth i (snd col) NaN) df.

Definition rows (df : DataFrame) : list (list scalar) :=
  map (iloc df) (seq 0 (nrows df)).

(** Boolean-mask selection on a list: [xs[mask]]. *)
Fixpoint select {A : Type} (mask : list bool) (xs : list A) : list A :=
  match mask, xs with
  | b :: mask', x :: xs' =>
      if b then x :: select mask' xs' else select mask' xs'
  | _, _ => []
  end.

(** [df[mask]]: the same selection on every column. *)
Definition select_rows (mask : list bool) (df : DataFrame) : DataFrame :=
  map (fun col => (fst col, select mask (snd col))) df.

(** ** Float arithmetic on lowest-terms rationals *)

Definition fadd (a b : Q) : Q := Qred (a + b).
Definition fsub (a b : Q) : Q := Qred (a - b).
Definition fmul (a b : Q) : Q := Qred (a * b).
Definition fdiv (a b : Q) : Q := Qred (a / b).
Definition of_nat (n : nat) : Q := inject_Z (Z.of_nat n).

(** The non-missing numbers of a series of numbers and missing values
    (reductions skip NaN). *)
Fixpoint valid (s : Series) : list Q :=
  match s with
  | [] => []
  | Float q :: t => q :: valid t
  | Int z :: t => inject_Z z :: valid t
  | _ :: t => valid t
  end.

(** Ascending sort of the numbers (insertion sort; the order of equal
    numbers is immaterial to every use below). *)
Fixpoint insert_sorted (x : Q) (l : list Q) : list Q :=
  match l with
  | [] => [x]
  | y :: t => if Qle_bool x y then x :: y :: t else y :: insert_sorted x t
  end.

Fixpoint sort (l : list Q) : list Q :=
  match l with
  | [] => []
  | x :: t => insert_sorted x (sort t)
  end.

Definition fsum (l : list Q) : Q := fold_left fadd l 0%Q.

(** [Series.mean()] of a series of numbers and missing values, in exact
    arithmetic: NaN on a series with no number. *)
Definition mean (s : Series) : scalar :=
  match valid s with
  | [] => NaN
  | v => Float (fdiv (fsum v) (of_nat (length v)))
  end.

(** The median of an ascending list of numbers: the middle one, or the mean
    of the two middle ones. *)
Definition middle (v : list Q) : scalar :=
  let n := length v in
  match n with
  | 0 => NaN
  | _ =>
      if Nat.even n
      then Float (fdiv (fadd (nth (n / 2 - 1) v 0%Q) (nth (n / 2) v 0%Q)) (2 # 1))
      else Float (Qred (nth (n / 2) v 0%Q))
  end.

(** [Series.median()], over the non-missing numbers. *)
Definition median (s : Series) : scalar := middle (sort (valid s)).

(** ** Stage 1: the literal table *)

Definition df0 : DataFrame :=
  [ ("Name", [Obj "Alice"; Obj "Bob"; Obj "Charlie"; Obj "David"; Obj "Emma"]);
    ("Age", [Float (25#1); NaN; Float (35#1); Float (40#1); Float (28#1)]);
    ("City", [Obj "New York"; Obj "Los Angeles"; Obj "Chicago"; Obj "Chicago";
              Obj "New York"]);
    ("Salary", [Float (50000#1); Float (60000#1); Float (70000#1);
                Float (80000#1); NaN]) ].

(** ** Stage 2: missing values *)

(** [Series.fillna(value)]. *)
Definition fillna (s : Series) (value : scalar) : Series :=
  map (fun c => if isna c then value else c) s.

(** [df[name].fillna(stat(df[name]), inplace=True)]: the statistic is taken
    on the column as it is when the call is made, and the filled series
    replaces the column of the frame. *)
Definition fill_column (stat : Series -> scalar) (name : string)
    (df : DataFrame) : exn DataFrame :=
  s <- getitem df name ;;
  Ok (setitem df name (fillna s (stat s))).

Definition fill_missing (df : DataFrame) : exn DataFrame :=
  df <- fill_column mean "Age" df ;;
  fill_column median "Salary" df.

(** [df.isnull()] row-wise: does row [i] hold a missing value? *)
Definition row_has_na (df : DataFrame) (i : nat) : bool :=
  existsb isna (iloc df i).

(** [df.dropna()]: a new frame without the rows that hold a missing value. *)
Definition dropna (df : DataFrame) : DataFrame :=
  select_rows (map (fun i => negb (row_has_na df i)) (seq 0 (nrows df))) df.

(** [df.isnull().sum()]: missing values per column. *)
Definition isnull_sum (df : DataFrame) : list (string * nat) :=
  map (fun col => (fst col, length (filter isna (snd col)))) df.

(** The two numeric columns as the specification gives them after the fill. *)
Definition age_filled : Series :=
  [Float (25#1); Float (32#1); Float (35#1); Float (40#1); Float (28#1)].
Definition salary_filled : Series :=
  [Float (50000#1); Float (60000#1); Float (70000#1); Float (80000#1);
   Float (65000#1)].

(** ** Stage 3: duplicates *)

(** [DataFrame.append(row, ignore_index=True)]: one more row, with a scalar
    for each column in column order. *)
Fixpoint append_row (df : DataFrame) (row : list scalar) : DataFrame :=
  match df, row with
  | (n, s) :: df', c :: row' => (n, s ++ [c]) :: append_row df' row'
  | (n, s) :: df', [] => (n, s ++ [NaN]) :: append_row df' []
  | [], _ => []
  end.

(** [duplicated(keep='first')] walks the rows once with the table of the
    rows seen so far: a row is flagged when it is already in the table and
    entered otherwise. *)
Fixpoint duplicated_from {A : Type} (eqb : A -> A -> bool)
    (seen l : list A) : list bool :=
  match l with
  | [] => []
  | x :: t =>
      if existsb (eqb x) seen
      then true :: duplicated_from eqb seen t
      else false :: duplicated_from eqb (x :: seen) t
  end.

Definition duplicated {A : Type} (eqb : A -> A -> bool) (l : list A)
  : list bool :=
  duplicated_from eqb [] l.

(** [drop_duplicates()] is the selection [l[~duplicated(l)]]. *)
Definition drop_duplicates {A : Type} (eqb : A -> A -> bool) (l : list A)
  : list A :=
  select (map negb (duplicated eqb l)) l.

(** Two rows are equal when they are equal column by column. *)
Fixpoint row_eqb (r1 r2 : list scalar) : bool :=
  match r1, r2 with
  | [], [] => true
  | a :: r1', b :: r2' => scalar_eqb a b && row_eqb r1' r2'
  | _, _ => false
  end.

Definition df_duplicated (df : DataFrame) : list bool :=
  duplicated row_eqb (rows df).

Definition df_drop_duplicates (df : DataFrame) : DataFrame :=
  select_rows (map negb (df_duplicated df)) df.

(** ** Stage 4: renaming columns *)

Fixpoint lookup_name (mapping : list (string * string)) (n : string) : string :=
  match mapping with
  | [] => n
  | (old, new) :: rest => if String.eqb old n then new else lookup_name rest n
  end.

Definition rename (mapping : list (string * string)) (df : DataFrame)
  : DataFrame :=
  map (fun col => (lookup_name mapping (fst col), snd col)) df.

(** ** Stage 5: casts *)

(** [astype(int)] on a number within the range of the 64-bit integers
    truncates toward zero; it refuses a missing value.  [astype(float)]
    keeps an integer of magnitude at most 2^53 as it is. *)
Definition to_int (c : scalar) : exn scalar :=
  match c with
  | Float q => Ok (Int (Z.quot (Qnum q) (Zpos (Qden q))))
  | Int z => Ok (Int z)
  | NaN => Raise (ValueError "Cannot convert non-finite values (NA or inf) to integer")
  | Obj _ => Raise (ValueError "invalid literal for int()")
  end.

Definition to_float (c : scalar) : exn scalar :=
  match c with
  | Float q => Ok (Float q)
  | Int z => Ok (Float (inject_Z z))
  | NaN => Ok NaN
  | Obj _ => Raise (ValueError "could not convert string to float")
  end.

Fixpoint astype (cast : scalar -> exn scalar) (s : Series) : exn Series :=
  match s with
  | [] => Ok []
  | c :: t => c' <- cast c ;; t' <- astype cast t ;; Ok (c' :: t')
  end.

(** [df[name] = df[name].astype(...)]. *)
Definition cast_column (cast : scalar -> exn scalar) (name : string)
    (df : DataFrame) : exn DataFrame :=
  s <- getitem df name ;;
  s' <- astype cast s ;;
  Ok (setitem df name s').

(** ** The script, stage after stage

    The frames the script keeps besides [df] ([df_cleaned],
    [df_no_duplicates]) are returned next to it. *)

Definition column_names : list (string * string) :=
  [("Name", "Employee Name"); ("Salary", "Annual Salary")].

Definition stage2 (df : DataFrame) : exn (DataFrame * DataFrame) :=
  df <- fill_missing df ;;
  Ok (df, dropna df).

Definition stage3 (df : DataFrame) : DataFrame :=
  df_drop_duplicates (append_row df (iloc df 1)).

Definition stage5 (df : DataFrame) : exn DataFrame :=
  df <- cast_column to_int "Age" df ;;
  cast_column to_float "Salary" df.

Definition script_to_stage5 : exn DataFrame :=
  r <- stage2 df0 ;;
  let df := fst r in
  let df_no_duplicates := stage3 df in
  let df := rename column_names df in
  stage5 df.

(** ** Stage 9: binning *)

(** The number held by a scalar, if any. *)
Definition to_num (c : scalar) : option Q :=
  match c with
  | Float q => Some q
  | Int z => Some (inject_Z z)
  | _ => None
  end.

Definition Qltb (a b : Q) : bool := negb (Qle_bool b a).

(** [bins.searchsorted(x, side='right')]: the position before which [x]
    would be inserted to keep the edges sorted, after any edge equal to [x];
    on sorted edges this is the first position whose edge exceeds [x]. *)
Fixpoint searchsorted_right (bins : list Q) (x : Q) : nat :=
  match bins with
  | [] => 0
  | b :: rest => if Qltb x b then 0 else S (searchsorted_right rest x)
  end.

(** [np.diff(bins) < 0).any()] and the test for repeated edges: what is left
    is a strictly increasing sequence. *)
Fixpoint increasing (bins : list Q) : bool :=
  match bins with
  | a :: (b :: _) as rest => Qltb a b && increasing rest
  | _ => true
  end.

(** One value of [pd.cut(..., right=False)]: the code [ids - 1] selects the
    label, and a value before the first edge ([ids = 0]) or not before the
    last one ([ids = len(bins)]) is missing. *)
Definition cut_scalar (bins : list Q) (labels : list string) (c : scalar)
  : scalar :=
  match to_num c with
  | None => NaN
  | Some x =>
      let ids := searchsorted_right bins x in
      if (ids =? 0) || (ids =? length bins) then NaN
      else Obj (nth (ids - 1) labels "")
  end.

(** A string among the values cannot be compared with the edges. *)
Definition numeric (c : scalar) : bool :=
  match c with
  | Obj _ => false
  | _ => true
  end.

(** Are the strings of a list all different? *)
Fixpoint distinct (l : list string) : bool :=
  match l with
  | [] => true
  | x :: t => negb (existsb (String.eqb x) t) && distinct t
  end.

(** [pd.cut(s, bins=bins, labels=labels, right=False)]: the checks of the
    edges, the search (which cannot compare a string), the checks of the
    labels (all different, one fewer than the edges), then the labelling. *)
Definition cut (s : Series) (bins : list Q) (labels : list string)
  : exn Series :=
  if negb (increasing bins)
  then Raise (ValueError "bins must increase monotonically.")
  else if negb (forallb numeric s)
  then Raise (TypeError "'<' not supported between instances of 'float' and 'str'")
  else if negb (distinct labels)
  then Raise (ValueError
         "labels must be unique if ordered=True; pass ordered=False for duplicate labels")
  else if negb (length labels + 1 =? length bins)
  then Raise (ValueError
         "Bin labels must be one fewer than the number of bin edges")
  else Ok (map (cut_scalar bins labels) s).

Definition bins : list Q := [0#1; 25#1; 35#1; 50#1]%Q.
Definition labels : list string := ["Young"; "Adult"; "Senior"].

(** ** Stage 10: left join *)

(** Positions of the rows of the right key column equal to [k], in order. *)
Fixpoint matches_from (k : scalar) (rk : list scalar) (j : nat) : list nat :=
  match rk with
  | [] => []
  | c :: rest =>
      if scalar_eqb k c then j :: matches_from k rest (S j)
      else matches_from k rest (S j)
  end.

Definition matches (k : scalar) (rk : list scalar) : list nat :=
  matches_from k rk 0.

(** The rows of the output for one left row: one per match, or one with no
    right row ([-1] in the right indexer). *)
Definition join_block (rk : list scalar) (i : nat) (k : scalar)
  : list (nat * option nat) :=
  match matches k rk with
  | [] => [(i, None)]
  | ms => map (fun j => (i, Some j)) ms
  end.

Fixpoint left_join_from (lk rk : list scalar) (i : nat)
  : list (nat * option nat) :=
  match lk with
  | [] => []
  | k :: rest => join_block rk i k ++ left_join_from rest rk (S i)
  end.

(** The left and right indexers of [how='left']: left order is kept. *)
Definition left_join_indexers (lk rk : list scalar)
  : list (nat * option nat) :=
  left_join_from lk rk 0.

Definition take_left (idx : list (nat * option nat)) (s : Series) : Series :=
  map (fun p => nth (fst p) s NaN) idx.

Definition take_right (idx : list (nat * option nat)) (s : Series) : Series :=
  map (fun p => match snd p with
                | Some j => nth j s NaN
                | None => NaN
                end) idx.

Definition drop_column (name : string) (df : DataFrame) : DataFrame :=
  filter (fun col => negb (String.eqb (fst col) name)) df.

(** A name other than the key that both frames use for a column gets a
    suffix in the output, [_x] on the left and [_y] on the right. *)
Definition shared (left right : DataFrame) (key n : string) : bool :=
  negb (String.eqb n key)
  && existsb (String.eqb n) (map fst left)
  && existsb (String.eqb n) (map fst right).

Definition suffixed (left right : DataFrame) (key suffix n : string)
  : string :=
  if shared left right key n then (n ++ suffix)%string else n.

(** [pd.merge(left, right, on=key, how='left')], for key columns of one
    kind: the left columns, then the right columns but the key, row by row
    as the indexers say. *)
Definition merge_left (left right : DataFrame) (key : string)
  : exn DataFrame :=
  lk <- getitem left key ;;
  rk <- getitem right key ;;
  let idx := left_join_indexers lk rk in
  Ok (map (fun col => (suffixed left right key "_x" (fst col),
                       take_left idx (snd col))) left
      ++ map (fun col => (suffixed left right key "_y" (fst col),
                          take_right idx (snd col)))
           (drop_column key right)).

Definition extra_data : DataFrame :=
  [ ("Employee Name", [Obj "Alice"; Obj "Bob"; Obj "Charlie"]);
    ("Department", [Obj "HR"; Obj "IT"; Obj "Finance"]) ].

(** ** Stage 11: melt *)

Fixpoint columns_of (df : DataFrame) (names : list string)
  : exn (list Series) :=
  match names with
  | [] => Ok []
  | n :: rest =>
      s <- getitem df n ;; t <- columns_of df rest ;; Ok (s :: t)
  end.

(** [np.tile(s, k)]. *)
Fixpoint tile {A : Type} (s : list A) (k : nat) : list A :=
  match k with
  | 0 => []
  | S k' => s ++ tile s k'
  end.

(** [df.melt(id_vars, value_vars)] for names that are all different, on a
    frame that has no column named [variable] or [value], as in the call of
    the script: every identifier column is tiled once per value column, the
    column [variable] repeats each value column's name once per row, and the
    column [value] is the value columns laid end to end.  A name that is no
    column of the frame raises [KeyError]. *)
Definition melt (df : DataFrame) (id_vars value_vars : list string)
  : exn DataFrame :=
  ids <- columns_of df id_vars ;;
  vals <- columns_of df value_vars ;;
  let N := nrows df in
  let K := length value_vars in
  Ok (map (fun p => (fst p, tile (snd p) K)) (combine id_vars ids)
      ++ [ ("variable", flat_map (fun n => repeat (Obj n) N) value_vars);
           ("value", concat vals) ]).

(** ** Stage 13: outliers *)

(** Arithmetic and comparison of scalars: a missing operand gives a missing
    result and a false comparison. *)
Definition lift2 (f : Q -> Q -> Q) (a b : scalar) : scalar :=
  match to_num a, to_num b with
  | Some x, Some y => Float (f x y)
  | _, _ => NaN
  end.

Definition lt_scalar (a b : scalar) : bool :=
  match to_num a, to_num b with
  | Some x, Some y => Qltb x y
  | _, _ => false
  end.

Definition gt_scalar (a b : scalar) : bool := lt_scalar b a.

(** The quantile [q] of an ascending list of numbers, by linear
    interpolation between the two order statistics around position
    [(n - 1) * q]. *)
Definition interpolate (v : list Q) (q : Q) : scalar :=
  let n := length v in
  match n with
  | 0 => NaN
  | _ =>
      let pos := (of_nat (n - 1) * q)%Q in
      let lo := Z.to_nat (Qfloor pos) in
      let hi := Nat.min (lo + 1) (n - 1) in
      let frac := (pos - inject_Z (Qfloor pos))%Q in
      Float (Qred (nth lo v 0 + (nth hi v 0 - nth lo v 0) * frac)%Q)
  end.

(** [Series.quantile(q)], over the non-missing numbers. *)
Definition quantile (s : Series) (q : Q) : scalar :=
  interpolate (sort (valid s)) q.

Definition Q1 (s : Series) : scalar := quantile s (1 # 4).
Definition Q3 (s : Series) : scalar := quantile s (3 # 4).
Definition IQR (s : Series) : scalar := lift2 fsub (Q3 s) (Q1 s).

Definition lower_bound (s : Series) : scalar :=
  lift2 fsub (Q1 s) (lift2 fmul (Float (3 # 2)) (IQR s)).
Definition upper_bound (s : Series) : scalar :=
  lift2 fadd (Q3 s) (lift2 fmul (Float (3 # 2)) (IQR s)).

(** The test on one value [x] of the series [s]:
    [(x < Q1 - 1.5 * IQR) | (x > Q3 + 1.5 * IQR)]. *)
Definition flag (s : Series) (x : scalar) : bool :=
  lt_scalar x (lower_bound s) || gt_scalar x (upper_bound s).

Definition outlier_condition (s : Series) : list bool :=
  map (flag s) s.

(** [df.loc[mask, col] = value], on a float column. *)
Fixpoint assign_where (mask : list bool) (s : Series) (value : scalar)
  : Series :=
  match mask, s with
  | b :: mask', x :: s' =>
      (if b then value else x) :: assign_where mask' s' value
  | _, _ => s
  end.

(** The mask and the median are both taken before the assignment. *)
Definition replace_outliers (s : Series) : Series :=
  let mask := outlier_condition s in
  let median_salary := median s in
  assign_where mask s median_salary.

Definition stage13 (df : DataFrame) : exn DataFrame :=
  s <- getitem df "Annual Salary" ;;
  Ok (setitem df "Annual Salary" (replace_outliers s)).

(** ** Stage 15: sampling *)

(** The random source is the sequence of its raw draws; a draw for the
    interval [0..max] is reduced into it. *)
Definition random_interval (rng : list nat) (max : nat) : nat * list nat :=
  match rng with
  | [] => (0, [])
  | r :: rng' => (r mod (S max), rng')
  end.

Definition swap (l : list nat) (i j : nat) : list nat :=
  let xi := nth i l 0 in
  let xj := nth j l 0 in
  map (fun p => if fst p =? i then xj else if fst p =? j then xi else snd p)
      (combine (seq 0 (length l)) l).

(** The shuffle behind [permutation]: for [i] from the last position down
    to 1, exchange position [i] with a random position of [0..i]. *)
Fixpoint shuffle (rng : list nat) (i : nat) (l : list nat) : list nat :=
  match i with
  | 0 => l
  | S i' =>
      let (j, rng') := random_interval rng i in
      shuffle rng' i' (swap l i j)
  end.

Definition permutation (rng : list nat) (n : nat) : list nat :=
  shuffle rng (n - 1) (seq 0 n).

(** [choice(population, size, replace=False)]: an empty population is
    refused first, unless nothing is asked of it, then a size larger than
    the population. *)
Definition choice (rng : list nat) (population size : nat) : exn (list nat) :=
  if (population =? 0) && negb (size =? 0)
  then Raise (ValueError
    "a must be greater than 0 unless no samples are taken")
  else if population <? size
  then Raise (ValueError
    "Cannot take a larger sample than population when 'replace=False'")
  else Ok (firstn size (permutation rng population)).

Definition take (locs : list nat) (df : DataFrame) : DataFrame :=
  map (fun col => (fst col, map (fun i => nth i (snd col) NaN) locs)) df.

(** [df.sample(n)]. *)
Definition sample (rng : list nat) (n : nat) (df : DataFrame)
  : exn DataFrame :=
  locs <- choice rng (nrows df) n ;;
  Ok (take locs df).

(** ** Notions the statements use *)

(** Every column of a frame has the length of the first one. *)
Definition wf (df : DataFrame) : Prop :=
  Forall (fun col => length (snd col) = nrows df) df.

(** The positions a mask selects. *)
Definition positions (mask : list bool) : list nat :=
  select mask (seq 0 (length mask)).

(** Deduplication in the words of the specification: a row is a duplicate
    when an equal row stands earlier in the sequence, and removal keeps the
    other rows, the first occurrences, in their order. *)
Definition has_earlier_equal {A : Type} (eqb : A -> A -> bool) (l : list A)
    (i : nat) : bool :=
  match nth_error l i with
  | Some x => existsb (eqb x) (firstn i l)
  | None => false
  end.

Definition first_occurrences {A : Type} (eqb : A -> A -> bool) (l : list A)
  : list A :=
  select (map (fun i => negb (has_earlier_equal eqb l i)) (seq 0 (length l))) l.

(** The join in the words of the specification: the rows of the right
    table whose key equals [k], and the rows of the output that stem from
    the left row [i]. *)
Definition matching_rows (k : scalar) (rk : list scalar) : list nat :=
  filter (fun j => scalar_eqb k (nth j rk NaN)) (seq 0 (length rk)).



(** The frame after stage 2 and its renamed form, as the later stages get
    them. *)
Definition df_filled : DataFrame :=
  [ ("Name", [Obj "Alice"; Obj "Bob"; Obj "Charlie"; Obj "David"; Obj "Emma"]);
    ("Age", age_filled);
    ("City", [Obj "New York"; Obj "Los Angeles"; Obj "Chicago"; Obj "Chicago";
              Obj "New York"]);
    ("Salary", salary_filled) ].

(** The exchange of two positions, as a function on positions. *)
Definition transpose (i j k : nat) : nat :=
  if k =? i then j else if k =? j then i else k.

(** A list of [n] distinct positions below [n]. *)
Definition positions_of (n : nat) (l : list nat) : Prop :=
  length l = n /\ NoDup l /\ Forall (fun x => x < n) l.

(** A column with one value far from the others. *)
Definition series_0_3_4_12 : Series :=
  [Float (0#1); Float (3#1); Float (4#1); Float (12#1)].

(** How many numbers of a list pass a test; the tests "not above [m]" and
    "not below [m]". *)
Definition count (f : Q -> bool) (l : list Q) : nat := length (filter f l).
Definition le_than (m x : Q) : bool := Qle_bool x m.
Definition ge_than (m x : Q) : bool := Qle_bool m x.

(** ** Stage 6: filtering rows *)

(** [s > threshold], element by element; a missing value compares false. *)
Definition gt_mask (s : Series) (threshold : scalar) : list bool :=
  map (fun x => gt_scalar x threshold) s.

(** [df[df[name] > threshold]]. *)
Definition filter_gt (df : DataFrame) (name : string) (threshold : scalar)
  : exn DataFrame :=
  s <- getitem df name ;;
  Ok (select_rows (gt_mask s threshold) df).

Definition stage6 (df : DataFrame) : exn DataFrame :=
  filter_gt df "Age" (Int 30).

(** Does the scalar hold a number? *)
Definition is_number (c : scalar) : bool :=
  match to_num c with
  | Some _ => true
  | None => false
  end.

(** ** Stage 8: category codes *)

(** The strings of a column, missing values left out. *)
Fixpoint strings (s : Series) : list string :=
  match s with
  | [] => []
  | Obj t :: rest => t :: strings rest
  | _ :: rest => strings rest
  end.

(** Insertion in an ascending list of different strings (the order is the
    order of Python on strings: character by character, by code). *)
Fixpoint insert_unique (x : string) (l : list string) : list string :=
  match l with
  | [] => [x]
  | y :: t =>
      match String.compare x y with
      | Lt => x :: y :: t
      | Eq => y :: t
      | Gt => y :: insert_unique x t
      end
  end.

(** The categories of a column of strings: its different values, sorted. *)
Definition categories (s : Series) : list string :=
  fold_right insert_unique [] (strings s).

(** The position of a string in a list, the length of the list if it is
    not there. *)
Fixpoint index_of (x : string) (l : list string) : nat :=
  match l with
  | [] => 0
  | y :: t => if String.eqb x y then 0 else S (index_of x t)
  end.

(** The code of a value: its position among the categories, and -1 for a
    missing value. *)
Definition code (cats : list string) (c : scalar) : scalar :=
  match c with
  | Obj t => Int (Z.of_nat (index_of t cats))
  | _ => Int (-1)
  end.

(** [s.astype("category").cat.codes], for a column of strings and missing
    values, as [City] is. *)
Definition cat_codes (s : Series) : Series :=
  map (code (categories s)) s.

(** ** Stage 12: grouping *)

(** The values of the rows whose key is [k]. *)
Definition group_values (keys values : Series) (k : string) : Series :=
  select (map (fun c => scalar_eqb c (Obj k)) keys) values.

(** [df.groupby(key)[value]], for a key column of strings and missing
    values: one group per different key, in ascending order of the keys,
    with the values of its rows; a row without key belongs to no group. *)
Definition groupby (df : DataFrame) (key value : string)
  : exn (list (string * Series)) :=
  ks <- getitem df key ;;
  vs <- getitem df value ;;
  Ok (map (fun k => (k, group_values ks vs k)) (categories ks)).

(** [df.groupby(key)[value].mean()]: the mean of every group. *)
Definition groupby_mean (df : DataFrame) (key value : string)
  : exn (list (string * scalar)) :=
  groups <- groupby df key value ;;
  Ok (map (fun g => (fst g, mean (snd g))) groups).

(** Is the scalar a string or a missing value? *)
Definition is_label (c : scalar) : bool :=
  match c with
  | Obj _ | NaN => true
  | _ => false
  end.

(** ** Where the floats of the script and the rationals agree

    A float is held as the rational it stands for, and the arithmetic above
    is exact.  The statements on quartiles, bounds and medians are made for
    columns on which the binary64 arithmetic of the script is exact as
    well: float columns whose entries are missing or whole numbers of
    magnitude at most 2^40.  On such a column an order statistic is a whole
    number, an interpolated quartile a multiple of 1/4 (of 1/8 once the
    median, a multiple of 1/2, has been written into the column), a bound a
    multiple of 1/16, and all of them stay below 2^45: every one of them is
    a binary64 number, so no operation rounds. *)
Definition small_integer (c : scalar) : bool :=
  match c with
  | NaN => true
  | Float q => (Z.pos (Qden q) =? 1)%Z && (Z.abs (Qnum q) <=? 2 ^ 40)%Z
  | _ => false
  end.

Definition small_integers (s : Series) : bool := forallb small_integer s.

(** A number or missing value that a float column holds exactly: an
    integer of magnitude at most 2^53 is not rounded by the cast to
    float. *)
Definition representable (c : scalar) : bool :=
  match c with
  | NaN | Float _ => true
  | Int z => (Z.abs z <=? 2 ^ 53)%Z
  | Obj _ => false
  end.

(** A number of magnitude at most 2^53: an integer edge of that size and
    the float next to it are compared as they are. *)
Definition moderate (e : Q) : bool :=
  Qle_bool (inject_Z (- 2 ^ 53)) e && Qle_bool e (inject_Z (2 ^ 53)).

(** A number within the range of the 64-bit integers, bounds excluded. *)
Definition fits_int64 (c : scalar) : bool :=
  match c with
  | Float q => Qltb (inject_Z (- 2 ^ 63)) q && Qltb q (inject_Z (2 ^ 63))
  | Int z => (Z.abs z <? 2 ^ 63)%Z
  | _ => false
  end.

Definition is_string (c : scalar) : bool :=
  match c with
  | Obj _ => true
  | _ => false
  end.

(** Two key columns that [pd.merge] joins on as they are: two columns of
    strings, or two columns of numbers and missing values that a float
    column holds exactly. *)
Definition mergeable (lk rk : Series) : bool :=
  (forallb is_string lk && forallb is_string rk)
  || (forallb representable lk && forallb representable rk).

(** Two small frames with a key that matches twice. *)
Definition staff : DataFrame :=
  [ ("Employee Name", [Obj "Alice"; Obj "Bob"; Obj "David"]);
    ("Age", [Int 25; Int 32; Int 40]) ].

Definition postings : DataFrame :=
  [ ("Employee Name", [Obj "Alice"; Obj "Alice"; Obj "Charlie"]);
    ("Department", [Obj "HR"; Obj "IT"; Obj "Finance"]) ].

(** Strictly ascending strings. *)
Abbreviation ascending :=
  (StronglySorted (fun a b : string => String.compare a b = Lt)).

(** ** Theorems *)

Lemma fillna_keeps (s : Series) (v : scalar) (i : nat) :
  isna (nth i s NaN) = false -> nth i (fillna s v) NaN = nth i s NaN.
Proof.
  revert i; induction s as [|c s IH]; intros [|i] H; simpl in *; auto.
  now rewrite H.
Qed.

(** C1: on the literal table, filling Age with its mean (32, over the four
    present ages) and Salary with its median (65000, over the four present
    salaries) gives Age = [25,32,35,40,28] and Salary =
    [50000,60000,70000,80000,65000]; the statistics are those of the columns
    at the time of the call and the present entries are unchanged. *)
Theorem fill_missing_example :
  (s <- getitem df0 "Age" ;; Ok (mean s)) = Ok (Float (32#1)) /\
  (s <- getitem df0 "Salary" ;; Ok (median s)) = Ok (Float (65000#1)) /\
  (df <- fill_missing df0 ;; getitem df "Age") = Ok age_filled /\
  (df <- fill_missing df0 ;; getitem df "Salary") = Ok salary_filled /\
  (age <- getitem df0 "Age" ;; Ok (select (map notna age) age_filled))
    = (age <- getitem df0 "Age" ;; Ok (select (map notna age) age)) /\
  (sal <- getitem df0 "Salary" ;; Ok (select (map notna sal) salary_filled))
    = (sal <- getitem df0 "Salary" ;; Ok (select (map notna sal) sal)).
Proof.
  repeat split; vm_compute; reflexivity.
Qed.

Lemma fill_missing_df0 : fill_missing df0 = Ok df_filled.
Proof. vm_compute. reflexivity. Qed.

(** C10: after the fill stage on the literal table no column holds a missing
    value, and the frame without the rows that hold one is the filled frame
    itself: the same five rows in the same order. *)
Theorem dropna_after_fill :
  (r <- stage2 df0 ;; Ok (isnull_sum (fst r)))
    = Ok [("Name", 0); ("Age", 0); ("City", 0); ("Salary", 0)] /\
  (r <- stage2 df0 ;; Ok (snd r)) = (r <- stage2 df0 ;; Ok (fst r)) /\
  (r <- stage2 df0 ;; Ok (nrows (snd r))) = Ok 5 /\
  (r <- stage2 df0 ;; Ok (snd r)) = Ok df_filled.
Proof.
  repeat split; vm_compute; reflexivity.
Qed.

(** The cast of stage 5 reads the column [Salary], which stage 4 renamed to
    [Annual Salary]: the lookup raises. *)
Lemma script_stops_at_stage5 : script_to_stage5 = Raise (KeyError "Salary").
Proof. vm_compute. reflexivity. Qed.

(** *** Masks, positions and rows *)

Lemma select_map {A B : Type} (f : A -> B) (mask : list bool) (l : list A) :
  select mask (map f l) = map f (select mask l).
Proof.
  revert l; induction mask as [|b m IH]; intros [|x l]; simpl; auto.
  destruct b; simpl; now rewrite IH.
Qed.

Lemma select_In {A : Type} (mask : list bool) (l : list A) (x : A) :
  In x (select mask l) -> In x l.
Proof.
  revert l; induction mask as [|b m IH]; intros [|y l]; simpl; try tauto.
  specialize (IH l). destruct b; simpl; tauto.
Qed.

Lemma select_shifted (d : scalar) (mask : list bool) (s : Series) (k : nat) :
  length mask = length s ->
  select mask s
  = map (fun i => nth (i - k) s d) (select mask (seq k (length mask))).
Proof.
  revert s k; induction mask as [|b m IH]; intros [|x s] k H;
    simpl in *; try discriminate; auto.
  injection H as H.
  assert (E : select m s
              = map (fun i => nth (i - k) (x :: s) d)
                    (select m (seq (S k) (length m)))).
  { rewrite (IH s (S k) H). apply map_ext_in. intros i Hi.
    apply select_In, in_seq in Hi.
    replace (i - k) with (S (i - S k)) by lia. reflexivity. }
  destruct b; simpl; rewrite E; [rewrite Nat.sub_diag|]; reflexivity.
Qed.

Lemma select_positions (mask : list bool) (s : Series) :
  length mask = length s ->
  select mask s = map (fun i => nth i s NaN) (positions mask).
Proof.
  intros H. rewrite (select_shifted NaN mask s 0 H). unfold positions.
  apply map_ext. intros i. now rewrite Nat.sub_0_r.
Qed.

Lemma select_rows_take (mask : list bool) (df : DataFrame) :
  wf df -> length mask = nrows df ->
  select_rows mask df = take (positions mask) df.
Proof.
  intros W H. unfold select_rows, take. apply map_ext_in. intros col Hc.
  unfold wf in W. rewrite Forall_forall in W.
  rewrite select_positions; [reflexivity|]. rewrite H. symmetry. now apply W.
Qed.

Lemma map_nth_seq {A : Type} (d : A) (l : list A) :
  map (fun k => nth k l d) (seq 0 (length l)) = l.
Proof.
  induction l as [|x l IH]; simpl; auto.
  rewrite <- seq_shift, map_map. simpl. now rewrite IH.
Qed.

Lemma nrows_take (locs : list nat) (df : DataFrame) :
  df <> [] -> nrows (take locs df) = length locs.
Proof.
  destruct df as [|[n s] df]; [congruence|]. intros _. simpl.
  now rewrite length_map.
Qed.

Lemma iloc_take (locs : list nat) (df : DataFrame) (k : nat) :
  k < length locs -> iloc (take locs df) k = iloc df (nth k locs 0).
Proof.
  intros H. unfold iloc, take. rewrite map_map. apply map_ext. intros col.
  simpl.
  rewrite (nth_indep _ NaN (nth 0 (snd col) NaN)) by now rewrite length_map.
  now rewrite (map_nth (fun i => nth i (snd col) NaN)).
Qed.

Lemma rows_take (locs : list nat) (df : DataFrame) :
  df <> [] -> rows (take locs df) = map (iloc df) locs.
Proof.
  intros H. unfold rows. rewrite (nrows_take locs df H).
  transitivity (map (iloc df) (map (fun k => nth k locs 0) (seq 0 (length locs))));
    [|now rewrite map_nth_seq].
  rewrite map_map. apply map_ext_in. intros k Hk. apply in_seq in Hk.
  apply iloc_take. lia.
Qed.

Lemma rows_select_rows (mask : list bool) (df : DataFrame) :
  wf df -> length mask = nrows df ->
  rows (select_rows mask df) = select mask (rows df).
Proof.
  intros W H. destruct df as [|c df].
  - simpl in *. destruct mask; reflexivity.
  - rewrite (select_rows_take mask _ W H), rows_take by discriminate.
    unfold rows at 1. rewrite select_map. unfold positions. now rewrite H.
Qed.

Lemma wf_select_rows (mask : list bool) (df : DataFrame) :
  wf df -> length mask = nrows df -> wf (select_rows mask df).
Proof.
  intros W H. rewrite (select_rows_take mask df W H).
  destruct df as [|c df]; [constructor|].
  unfold wf. rewrite nrows_take by discriminate.
  apply Forall_forall. intros col Hc. unfold take in Hc.
  apply in_map_iff in Hc. destruct Hc as [c' [<- _]]. simpl.
  now rewrite length_map.
Qed.

Lemma select_all_true {A : Type} (l : list A) :
  select (repeat true (length l)) l = l.
Proof. induction l; simpl; congruence. Qed.

Lemma length_rows (df : DataFrame) : length (rows df) = nrows df.
Proof. unfold rows. now rewrite length_map, length_seq. Qed.

(** *** Deduplication of a sequence *)

Section Dedup.
Context {A : Type} (eqb : A -> A -> bool).

Lemma length_duplicated_from (seen l : list A) :
  length (duplicated_from eqb seen l) = length l.
Proof.
  revert seen; induction l as [|x l IH]; intros seen; simpl; auto.
  destruct (existsb (eqb x) seen); simpl; now rewrite IH.
Qed.

(** Nothing is flagged in what deduplication keeps. *)
Lemma duplicated_from_kept (seen l : list A) :
  let kept := select (map negb (duplicated_from eqb seen l)) l in
  duplicated_from eqb seen kept = repeat false (length kept).
Proof.
  revert seen; induction l as [|x l IH]; intros seen; simpl; auto.
  destruct (existsb (eqb x) seen) eqn:E; simpl.
  - apply IH.
  - rewrite E. f_equal. apply IH.
Qed.

Lemma drop_duplicates_idempotent (l : list A) :
  drop_duplicates eqb (drop_duplicates eqb l) = drop_duplicates eqb l.
Proof.
  unfold drop_duplicates at 1, duplicated.
  unfold drop_duplicates, duplicated.
  rewrite (duplicated_from_kept [] l).
  set (kept := select _ l).
  replace (map negb (repeat false (length kept)))
    with (repeat true (length kept)).
  - apply select_all_true.
  - induction (length kept); simpl; congruence.
Qed.

Hypothesis eqb_refl : forall x, eqb x x = true.
Hypothesis eqb_sym : forall x y, eqb x y = eqb y x.
Hypothesis eqb_trans :
  forall x y z, eqb x y = true -> eqb y z = true -> eqb x z = true.

Lemma existsb_eqb_trans (x y : A) (l : list A) :
  eqb x y = true -> existsb (eqb y) l = true -> existsb (eqb x) l = true.
Proof.
  intros Hxy H. apply existsb_exists in H. destruct H as [z [Hz Hyz]].
  apply existsb_exists. exists z. split; [assumption|].
  now apply (eqb_trans x y z).
Qed.

(** The table of seen rows stands for the whole prefix: it holds a row
    equal to each row met so far. *)
Lemma duplicated_from_prefix (seen p l : list A) :
  (forall y, existsb (eqb y) seen = existsb (eqb y) p) ->
  duplicated_from eqb seen l
  = map (has_earlier_equal eqb (p ++ l)) (seq (length p) (length l)).
Proof.
  revert seen p; induction l as [|x l IH]; intros seen p Inv; simpl; auto.
  assert (Hx : has_earlier_equal eqb (p ++ x :: l) (length p)
               = existsb (eqb x) seen).
  { unfold has_earlier_equal.
    rewrite nth_error_app2, Nat.sub_diag by lia. simpl.
    rewrite firstn_app, Nat.sub_diag, firstn_all, app_nil_r. simpl.
    now rewrite Inv. }
  rewrite Hx.
  assert (Step : forall seen',
    (forall y, existsb (eqb y) seen' = existsb (eqb y) (p ++ [x])) ->
    duplicated_from eqb seen' l
    = map (has_earlier_equal eqb (p ++ x :: l)) (seq (S (length p)) (length l))).
  { intros seen' Inv'. rewrite (IH seen' (p ++ [x]) Inv').
    rewrite <- app_assoc, length_app. simpl.
    now rewrite Nat.add_1_r. }
  destruct (existsb (eqb x) seen) eqn:E; f_equal; apply Step; intros y;
    rewrite existsb_app; simpl; rewrite orb_false_r, <- Inv.
  - destruct (eqb y x) eqn:Eyx.
    + rewrite orb_true_r. now apply (existsb_eqb_trans y x).
    + now rewrite orb_false_r.
  - apply orb_comm.
Qed.

Lemma duplicated_spec (l : list A) :
  duplicated eqb l = map (has_earlier_equal eqb l) (seq 0 (length l)).
Proof. apply (duplicated_from_prefix [] [] l). reflexivity. Qed.

Lemma drop_duplicates_spec (l : list A) :
  drop_duplicates eqb l = first_occurrences eqb l.
Proof.
  unfold drop_duplicates, first_occurrences.
  now rewrite duplicated_spec, map_map.
Qed.

Lemma kept_or_seen (seen l : list A) (x : A) :
  In x l ->
  (exists y, In y (select (map negb (duplicated_from eqb seen l)) l)
             /\ eqb y x = true)
  \/ existsb (eqb x) seen = true.
Proof.
  revert seen; induction l as [|a l IH]; intros seen Hin; [destruct Hin|].
  destruct Hin as [->|Hin]; simpl.
  - destruct (existsb (eqb x) seen) eqn:E; simpl; [now right|].
    left. exists x. split; [now left | apply eqb_refl].
  - destruct (existsb (eqb a) seen) eqn:E; simpl.
    + apply (IH seen Hin).
    + destruct (IH (a :: seen) Hin) as [[y [Hy Hyx]]|Hs].
      * left. exists y. split; [now right | assumption].
      * simpl in Hs. apply orb_true_iff in Hs. destruct Hs as [Hxa|Hs].
        -- left. exists a. split; [now left|]. now rewrite eqb_sym.
        -- now right.
Qed.

Lemma drop_duplicates_covers (l : list A) (x : A) :
  In x l -> exists y, In y (drop_duplicates eqb l) /\ eqb y x = true.
Proof.
  intros H. destruct (kept_or_seen [] l x H) as [E|E]; [exact E|].
  discriminate.
Qed.

Lemma drop_duplicates_distinct (l : list A) (i : nat) :
  has_earlier_equal eqb (drop_duplicates eqb l) i = false.
Proof.
  set (kept := drop_duplicates eqb l).
  destruct (Nat.lt_ge_cases i (length kept)) as [Hi|Hi].
  - assert (E : nth i (duplicated eqb kept) true = false).
    { unfold kept, drop_duplicates, duplicated.
      rewrite (duplicated_from_kept [] l).
      apply nth_repeat_lt. exact Hi. }
    rewrite duplicated_spec in E.
    rewrite (nth_indep _ true (has_earlier_equal eqb kept 0)) in E
      by now rewrite length_map, length_seq.
    rewrite (map_nth (has_earlier_equal eqb kept)), seq_nth in E by assumption.
    exact E.
  - unfold has_earlier_equal.
    now rewrite (proj2 (nth_error_None kept i) Hi).
Qed.
End Dedup.

Lemma scalar_eqb_refl (a : scalar) : scalar_eqb a a = true.
Proof.
  destruct a; simpl; auto.
  - apply Qeq_bool_iff. reflexivity.
  - apply Z.eqb_refl.
  - apply String.eqb_refl.
Qed.

Lemma Qeq_bool_comm (p q : Q) : Qeq_bool p q = Qeq_bool q p.
Proof.
  destruct (Qeq_bool p q) eqn:E1, (Qeq_bool q p) eqn:E2; auto.
  - apply Qeq_bool_iff in E1. symmetry in E1. apply Qeq_bool_iff in E1.
    congruence.
  - apply Qeq_bool_iff in E2. symmetry in E2. apply Qeq_bool_iff in E2.
    congruence.
Qed.

Lemma scalar_eqb_sym (a b : scalar) : scalar_eqb a b = scalar_eqb b a.
Proof.
  destruct a, b; simpl; auto.
  - apply Qeq_bool_comm.
  - apply Qeq_bool_comm.
  - apply Qeq_bool_comm.
  - apply Z.eqb_sym.
  - apply String.eqb_sym.
Qed.

Lemma Z_eqb_inject (x y : Z) : Z.eqb x y = Qeq_bool (inject_Z x) (inject_Z y).
Proof.
  destruct (Z.eqb_spec x y) as [->|N].
  - symmetry. apply Qeq_bool_iff. reflexivity.
  - destruct (Qeq_bool (inject_Z x) (inject_Z y)) eqn:E; auto.
    apply Qeq_bool_iff in E. rewrite inject_Z_injective in E. contradiction.
Qed.

Lemma Qeq_bool_trans (p q r : Q) :
  Qeq_bool p q = true -> Qeq_bool q r = true -> Qeq_bool p r = true.
Proof.
  intros H1 H2. apply Qeq_bool_iff in H1, H2. apply Qeq_bool_iff.
  now rewrite H1.
Qed.

Lemma scalar_eqb_trans (a b c : scalar) :
  scalar_eqb a b = true -> scalar_eqb b c = true -> scalar_eqb a c = true.
Proof.
  destruct a, b, c; simpl; try discriminate; auto;
    rewrite ?Z_eqb_inject; try apply Qeq_bool_trans.
  intros H1 H2. apply String.eqb_eq in H1, H2. apply String.eqb_eq.
  congruence.
Qed.

Lemma row_eqb_refl (r : list scalar) : row_eqb r r = true.
Proof.
  induction r as [|a r IH]; simpl; auto. now rewrite scalar_eqb_refl.
Qed.

Lemma row_eqb_sym (r1 r2 : list scalar) : row_eqb r1 r2 = row_eqb r2 r1.
Proof.
  revert r2; induction r1 as [|a r1 IH]; intros [|b r2]; simpl; auto.
  now rewrite scalar_eqb_sym, IH.
Qed.

Lemma row_eqb_trans (r1 r2 r3 : list scalar) :
  row_eqb r1 r2 = true -> row_eqb r2 r3 = true -> row_eqb r1 r3 = true.
Proof.
  revert r2 r3; induction r1 as [|a r1 IH]; intros [|b r2] [|c r3]; simpl;
    try discriminate; auto.
  intros H1 H2. apply andb_true_iff in H1, H2. apply andb_true_iff.
  destruct H1 as [H1 H1'], H2 as [H2 H2']. split.
  - now apply (scalar_eqb_trans a b c).
  - now apply (IH r2 r3).
Qed.

Lemma rows_df_drop_duplicates (df : DataFrame) :
  wf df ->
  rows (df_drop_duplicates df) = drop_duplicates row_eqb (rows df).
Proof.
  intros W. unfold df_drop_duplicates, df_duplicated, drop_duplicates.
  apply rows_select_rows; [assumption|].
  unfold duplicated. now rewrite length_map, length_duplicated_from, length_rows.
Qed.

(** C6: on a frame whose columns have one length, detection flags the rows
    that have an equal row before them, and deduplication keeps exactly the
    other rows (the first occurrence of each distinct row) in their original
    order: every row of the frame has an equal row among the kept ones, no
    kept row has an equal kept row before it, and deduplicating the result
    again returns it unchanged. *)
Theorem drop_duplicates_first_occurrences (df : DataFrame) :
  wf df ->
  df_duplicated df
  = map (has_earlier_equal row_eqb (rows df)) (seq 0 (nrows df)) /\
  rows (df_drop_duplicates df) = first_occurrences row_eqb (rows df) /\
  (forall r, In r (rows df) ->
     exists r', In r' (rows (df_drop_duplicates df)) /\ row_eqb r' r = true) /\
  (forall i, has_earlier_equal row_eqb (rows (df_drop_duplicates df)) i = false) /\
  df_drop_duplicates (df_drop_duplicates df) = df_drop_duplicates df.
Proof.
  intros W. rewrite (rows_df_drop_duplicates df W). repeat split.
  - unfold df_duplicated. rewrite <- (length_rows df).
    apply duplicated_spec. apply row_eqb_trans.
  - apply drop_duplicates_spec. apply row_eqb_trans.
  - intros r Hr.
    apply drop_duplicates_covers; auto using row_eqb_refl, row_eqb_sym.
  - intros i. apply drop_duplicates_distinct. apply row_eqb_trans.
  - set (mask := map negb (df_duplicated df)).
    assert (Hm : length mask = nrows df).
    { unfold mask, df_duplicated, duplicated.
      now rewrite length_map, length_duplicated_from, length_rows. }
    assert (W' : wf (df_drop_duplicates df)) by now apply wf_select_rows.
    unfold df_drop_duplicates at 1. unfold df_duplicated.
    rewrite (rows_df_drop_duplicates df W).
    unfold drop_duplicates at 1, duplicated.
    rewrite (duplicated_from_kept row_eqb [] (rows df)).
    fold (duplicated row_eqb (rows df)). fold (drop_duplicates row_eqb (rows df)).
    rewrite <- (rows_df_drop_duplicates df W), length_rows.
    set (d := df_drop_duplicates df) in *.
    replace (map negb (repeat false (nrows d))) with (repeat true (nrows d))
      by (induction (nrows d); simpl; congruence).
    unfold select_rows.
    transitivity (map (fun col : string * Series => col) d); [|apply map_id].
    apply map_ext_in. intros [n s] Hc. simpl.
    unfold wf in W'. rewrite Forall_forall in W'.
    rewrite <- (W' _ Hc). simpl. now rewrite select_all_true.
Qed.

Lemma drop_duplicates_first_occurrences_witness :
  let df := append_row df_filled (iloc df_filled 1) in
  df_duplicated df
  = map (has_earlier_equal row_eqb (rows df)) (seq 0 (nrows df)) /\
  rows (df_drop_duplicates df) = first_occurrences row_eqb (rows df) /\
  (forall r, In r (rows df) ->
     exists r', In r' (rows (df_drop_duplicates df)) /\ row_eqb r' r = true) /\
  (forall i, has_earlier_equal row_eqb (rows (df_drop_duplicates df)) i = false) /\
  df_drop_duplicates (df_drop_duplicates df) = df_drop_duplicates df.
Proof.
  apply (drop_duplicates_first_occurrences
           (append_row df_filled (iloc df_filled 1))).
  repeat constructor.
Defined.

(** *** Binning *)

Lemma Qltb_lt (a b : Q) : Qltb a b = true <-> (a < b)%Q.
Proof.
  unfold Qltb. rewrite negb_true_iff. split; intros H.
  - apply Qnot_le_lt. intros L. apply Qle_bool_iff in L. congruence.
  - destruct (Qle_bool b a) eqn:E; auto.
    apply Qle_bool_iff in E. exfalso. now apply (Qlt_not_le a b).
Qed.

Lemma Qltb_ge (a b : Q) : Qltb a b = false <-> (b <= a)%Q.
Proof.
  unfold Qltb. rewrite negb_false_iff. apply Qle_bool_iff.
Qed.

Lemma increasing_tail (b : Q) (edges : list Q) :
  increasing (b :: edges) = true -> increasing edges = true.
Proof.
  destruct edges as [|c edges]; simpl; auto.
  intros H. now apply andb_true_iff in H.
Qed.

Lemma increasing_above_head (b : Q) (edges : list Q) (i : nat) :
  increasing (b :: edges) = true -> i < length edges ->
  (b < nth i edges 0)%Q.
Proof.
  revert b i; induction edges as [|c edges IH]; intros b i H Hi;
    simpl in Hi; [lia|].
  simpl in H. apply andb_true_iff in H. destruct H as [Hbc H].
  apply Qltb_lt in Hbc. destruct i as [|i]; simpl; [assumption|].
  apply Qlt_trans with c; [assumption|]. apply IH; [assumption|lia].
Qed.

(** On increasing edges, the edges not above [x] are exactly those before
    the position [searchsorted_right] returns. *)
Lemma searchsorted_right_spec (edges : list Q) (x : Q) (i : nat) :
  increasing edges = true -> i < length edges ->
  ((nth i edges 0 <= x)%Q <-> i < searchsorted_right edges x).
Proof.
  revert i; induction edges as [|b edges IH]; intros i H Hi;
    simpl in Hi; [lia|].
  simpl. destruct (Qltb x b) eqn:E.
  - apply Qltb_lt in E. split; [|lia]. intros L. exfalso.
    destruct i as [|i]; simpl in L.
    + now apply (Qlt_not_le x b).
    + apply (Qlt_not_le x b); [assumption|].
      apply Qle_trans with (nth i edges 0%Q); [|assumption].
      apply Qlt_le_weak. apply increasing_above_head; [assumption|lia].
  - apply Qltb_ge in E. destruct i as [|i]; simpl.
    + split; [lia|auto].
    + rewrite (IH i (increasing_tail _ _ H)) by lia. lia.
Qed.

Lemma searchsorted_right_le (edges : list Q) (x : Q) :
  searchsorted_right edges x <= length edges.
Proof.
  induction edges as [|b edges IH]; simpl; [lia|].
  destruct (Qltb x b); simpl; lia.
Qed.

(** [x] lies in the interval of position [i] exactly when the search returns
    [i + 1]. *)
Lemma interval_searchsorted (edges : list Q) (x : Q) (i : nat) :
  increasing edges = true -> S i < length edges ->
  ((nth i edges 0 <= x)%Q /\ (x < nth (S i) edges 0)%Q
   <-> searchsorted_right edges x = S i).
Proof.
  intros H Hi.
  pose proof (searchsorted_right_spec edges x i H) as Lo.
  pose proof (searchsorted_right_spec edges x (S i) H Hi) as Hi'.
  split.
  - intros [L U]. apply Lo in L; [|lia].
    assert (~ S i < searchsorted_right edges x).
    { intros C. apply Hi' in C. now apply (Qlt_not_le _ _ U). }
    lia.
  - intros E. split.
    + apply Lo; lia.
    + apply Qnot_le_lt. intros C. apply Hi' in C. lia.
Qed.

Lemma distinct_NoDup (l : list string) : NoDup l -> distinct l = true.
Proof.
  induction 1 as [|x l Nx _ IH]; simpl; auto. rewrite IH, andb_true_r.
  apply negb_true_iff. destruct (existsb (String.eqb x) l) eqn:E; auto.
  apply existsb_exists in E. destruct E as [y [Hy E]].
  apply String.eqb_eq in E. subst. contradiction.
Qed.

Lemma representable_numeric (s : Series) :
  forallb representable s = true -> forallb numeric s = true.
Proof.
  rewrite !forallb_forall. intros H c Hc. specialize (H c Hc).
  destruct c; simpl in H; try discriminate; reflexivity.
Qed.

Lemma cut_Ok (edges : list Q) (names : list string) (s : Series) :
  increasing edges = true -> NoDup names ->
  length names + 1 = length edges -> forallb numeric s = true ->
  cut s edges names = Ok (map (cut_scalar edges names) s).
Proof.
  intros Inc D L Num. unfold cut.
  now rewrite Inc, Num, (distinct_NoDup names D), L, Nat.eqb_refl.
Qed.

Lemma cut_scalar_inside (edges : list Q) (names : list string) (c : scalar)
    (x : Q) (k : nat) :
  increasing edges = true -> to_num c = Some x -> S k < length edges ->
  (nth k edges 0 <= x)%Q /\ (x < nth (S k) edges 0)%Q ->
  cut_scalar edges names c = Obj (nth k names "").
Proof.
  intros Inc Ec Hk In. apply interval_searchsorted in In; auto.
  unfold cut_scalar. rewrite Ec, In.
  destruct (Nat.eqb_spec (S k) 0) as [E|_]; [lia|].
  destruct (Nat.eqb_spec (S k) (length edges)) as [E|_]; [lia|].
  cbn [orb]. now replace (S k - 1) with k by lia.
Qed.

Lemma cut_scalar_outside (edges : list Q) (names : list string) (c : scalar)
    (x : Q) :
  increasing edges = true -> to_num c = Some x ->
  (forall k, S k < length edges ->
     ~ ((nth k edges 0 <= x)%Q /\ (x < nth (S k) edges 0)%Q)) ->
  cut_scalar edges names c = NaN.
Proof.
  intros Inc Ec Out. unfold cut_scalar. rewrite Ec.
  destruct (Nat.eqb_spec (searchsorted_right edges x) 0) as [E|N0];
    [reflexivity|].
  destruct (Nat.eqb_spec (searchsorted_right edges x) (length edges))
    as [E|Nl]; [reflexivity|].
  exfalso. pose proof (searchsorted_right_le edges x) as Le.
  apply (Out (searchsorted_right edges x - 1)); [lia|].
  apply interval_searchsorted; auto; lia.
Qed.

(** C3: on at least two strictly increasing edges of magnitude at most
    2^53, with different labels, one fewer than the edges, binning a series
    of numbers (floats, or integers of magnitude at most 2^53) and missing
    values succeeds and labels it entry by entry: a number is given the
    label of the one interval [edges[k], edges[k+1]) that holds it, lower
    edge included and upper edge excluded; a number in none of the intervals
    is given the missing label, as is a missing value; and the ages
    [25,32,35,40,28], as floats or as integers, with the edges [0,25,35,50]
    are labelled [Adult,Adult,Senior,Senior,Adult]. *)
Theorem cut_half_open (edges : list Q) (names : list string) (s : Series) :
  increasing edges = true ->
  forallb moderate edges = true ->
  2 <= length edges ->
  NoDup names ->
  length names + 1 = length edges ->
  forallb representable s = true ->
  (exists out, cut s edges names = Ok out /\
     length out = length s /\
     forall i c, nth_error s i = Some c ->
       (c = NaN -> nth_error out i = Some NaN) /\
       (forall x, to_num c = Some x ->
          (forall k, S k < length edges ->
             (nth k edges 0 <= x)%Q /\ (x < nth (S k) edges 0)%Q ->
             nth_error out i = Some (Obj (nth k names ""))) /\
          (forall k j, S k < length edges -> S j < length edges ->
             (nth k edges 0 <= x)%Q /\ (x < nth (S k) edges 0)%Q ->
             (nth j edges 0 <= x)%Q /\ (x < nth (S j) edges 0)%Q ->
             k = j) /\
          ((forall k, S k < length edges ->
              ~ ((nth k edges 0 <= x)%Q /\ (x < nth (S k) edges 0)%Q)) ->
           nth_error out i = Some NaN))) /\
  cut age_filled bins labels
  = Ok [Obj "Adult"; Obj "Adult"; Obj "Senior"; Obj "Senior"; Obj "Adult"] /\
  cut [Int 25; Int 32; Int 35; Int 40; Int 28] bins labels
  = Ok [Obj "Adult"; Obj "Adult"; Obj "Senior"; Obj "Senior"; Obj "Adult"].
Proof.
  intros Inc _ _ D L Rep. split; [|split; reflexivity].
  pose proof (representable_numeric s Rep) as Num.
  exists (map (cut_scalar edges names) s).
  split; [now apply cut_Ok|]. split; [apply length_map|].
  intros i c E.
  assert (At : nth_error (map (cut_scalar edges names) s) i
               = Some (cut_scalar edges names c))
    by now rewrite nth_error_map, E.
  rewrite At. split; [now intros ->|].
  intros x Ec. split; [|split].
  - intros k Hk In. f_equal. now apply cut_scalar_inside with x.
  - intros k j Hk Hj Ik Ij.
    apply interval_searchsorted in Ik, Ij; auto. congruence.
  - intros Out. f_equal. now apply cut_scalar_outside with x.
Qed.

Lemma cut_half_open_witness :
  let s := [Int 25; NaN; Float (99#2); Int 50] in
  (exists out, cut s bins labels = Ok out /\
     length out = length s /\
     forall i c, nth_error s i = Some c ->
       (c = NaN -> nth_error out i = Some NaN) /\
       (forall x, to_num c = Some x ->
          (forall k, S k < length bins ->
             (nth k bins 0 <= x)%Q /\ (x < nth (S k) bins 0)%Q ->
             nth_error out i = Some (Obj (nth k labels ""))) /\
          (forall k j, S k < length bins -> S j < length bins ->
             (nth k bins 0 <= x)%Q /\ (x < nth (S k) bins 0)%Q ->
             (nth j bins 0 <= x)%Q /\ (x < nth (S j) bins 0)%Q ->
             k = j) /\
          ((forall k, S k < length bins ->
              ~ ((nth k bins 0 <= x)%Q /\ (x < nth (S k) bins 0)%Q)) ->
           nth_error out i = Some NaN))) /\
  cut age_filled bins labels
  = Ok [Obj "Adult"; Obj "Adult"; Obj "Senior"; Obj "Senior"; Obj "Adult"] /\
  cut [Int 25; Int 32; Int 35; Int 40; Int 28] bins labels
  = Ok [Obj "Adult"; Obj "Adult"; Obj "Senior"; Obj "Senior"; Obj "Adult"].
Proof.
  apply (cut_half_open bins labels [Int 25; NaN; Float (99#2); Int 50]).
  - reflexivity.
  - reflexivity.
  - simpl. lia.
  - repeat constructor; simpl; intuition discriminate.
  - reflexivity.
  - reflexivity.
Defined.

(** *** Left join *)

Lemma filter_none {A : Type} (f : A -> bool) (l : list A) :
  (forall x, In x l -> f x = false) -> filter f l = [].
Proof.
  induction l as [|x l IH]; simpl; auto. intros H.
  rewrite (H x) by now left. apply IH. intros y Hy. apply H. now right.
Qed.

Lemma matches_from_filter (k : scalar) (rk : list scalar) (j0 : nat) :
  matches_from k rk j0
  = filter (fun j => scalar_eqb k (nth (j - j0) rk NaN)) (seq j0 (length rk)).
Proof.
  revert j0; induction rk as [|c rk IH]; intros j0; simpl; auto.
  rewrite Nat.sub_diag.
  assert (E : matches_from k rk (S j0)
              = filter (fun j => scalar_eqb k (nth (j - j0) (c :: rk) NaN))
                       (seq (S j0) (length rk))).
  { rewrite IH. apply filter_ext_in. intros j Hj. apply in_seq in Hj.
    now replace (j - j0) with (S (j - S j0)) by lia. }
  destruct (scalar_eqb k c); now rewrite E.
Qed.

Lemma matches_matching_rows (k : scalar) (rk : list scalar) :
  matches k rk = matching_rows k rk.
Proof.
  unfold matches, matching_rows. rewrite matches_from_filter.
  apply filter_ext. intros j. now rewrite Nat.sub_0_r.
Qed.




Lemma join_block_length (rk : list scalar) (i : nat) (k : scalar) :
  length (join_block rk i k) = Nat.max 1 (length (matching_rows k rk)).
Proof.
  unfold join_block. rewrite matches_matching_rows.
  destruct (matching_rows k rk) as [|j ms]; simpl; auto.
  rewrite length_map. lia.
Qed.



Lemma nth_map_at {A B : Type} (f : A -> B) (d : B) (l : list A) (p : nat)
    (x : A) :
  nth_error l p = Some x -> nth p (map f l) d = f x.
Proof.
  revert p; induction l as [|y l IH]; intros [|p]; simpl; try discriminate.
  - now intros [= ->].
  - apply IH.
Qed.

(** *** Melt *)







Lemma getitem_present (df : DataFrame) (n : string) :
  In n (map fst df) -> exists s, getitem df n = Ok s /\ In s (map snd df).
Proof.
  induction df as [|[m c] df IH]; simpl; [tauto|]. intros H.
  destruct (String.eqb_spec m n) as [E|N].
  - exists c. split; [reflexivity | now left].
  - destruct H as [H|H]; [contradiction|].
    destruct (IH H) as [s [G I]]. exists s. split; [assumption | now right].
Qed.

Lemma wf_length (df : DataFrame) (s : Series) :
  wf df -> In s (map snd df) -> length s = nrows df.
Proof.
  intros W H. apply in_map_iff in H. destruct H as [col [<- Hc]].
  unfold wf in W. rewrite Forall_forall in W. now apply W.
Qed.



Lemma uniform_frame (M : nat) (df : DataFrame) :
  df <> [] -> Forall (fun col => length (snd col) = M) df ->
  wf df /\ nrows df = M.
Proof.
  intros Hne F. assert (E : nrows df = M).
  { destruct df as [|[n s] df]; [congruence|]. now inversion F. }
  split; [|assumption]. unfold wf. now rewrite E.
Qed.


Section Melt.
Variables (df : DataFrame) (K : nat).
Local Abbreviation N := (nrows df).
Local Abbreviation present :=
  (fun (n : string) (s : Series) => getitem df n = Ok s /\ length s = N).






End Melt.




(** *** Sampling *)

Lemma length_swap (l : list nat) (i j : nat) :
  length (swap l i j) = length l.
Proof.
  unfold swap. rewrite length_map, length_combine, length_seq.
  apply Nat.min_id.
Qed.

Lemma nth_swap (l : list nat) (i j k : nat) :
  k < length l -> nth k (swap l i j) 0 = nth (transpose i j k) l 0.
Proof.
  intros Hk. unfold swap.
  set (f := fun p : nat * nat =>
              if fst p =? i then nth j l 0
              else if fst p =? j then nth i l 0 else snd p).
  rewrite (nth_indep _ 0 (f (0, 0)))
    by now rewrite length_map, length_combine, length_seq, Nat.min_id.
  rewrite (map_nth f), combine_nth by now rewrite length_seq.
  rewrite seq_nth by assumption. unfold f, transpose. simpl.
  destruct (k =? i); [reflexivity|]. now destruct (k =? j).
Qed.

Lemma transpose_lt (n i j k : nat) :
  i < n -> j < n -> k < n -> transpose i j k < n.
Proof.
  intros. unfold transpose.
  destruct (k =? i); [assumption|]. now destruct (k =? j).
Qed.

Lemma transpose_inj (i j a b : nat) :
  transpose i j a = transpose i j b -> a = b.
Proof.
  unfold transpose.
  destruct (Nat.eqb_spec a i), (Nat.eqb_spec a j),
    (Nat.eqb_spec b i), (Nat.eqb_spec b j); lia.
Qed.

Lemma swap_positions (n : nat) (l : list nat) (i j : nat) :
  i < n -> j < n -> positions_of n l -> positions_of n (swap l i j).
Proof.
  intros Hi Hj (L & D & F). repeat split.
  - now rewrite length_swap.
  - apply (NoDup_nth _ 0). rewrite length_swap. intros a b Ha Hb E.
    rewrite !nth_swap in E by assumption.
    apply (proj1 (NoDup_nth l 0) D) in E.
    + now apply transpose_inj in E.
    + rewrite L in *. now apply transpose_lt.
    + rewrite L in *. now apply transpose_lt.
  - apply Forall_forall. intros x Hx.
    destruct (In_nth _ _ 0 Hx) as [k [Hk E]]. rewrite length_swap in Hk.
    rewrite nth_swap in E by assumption. subst x.
    rewrite Forall_forall in F. apply F, nth_In.
    rewrite L in *. now apply transpose_lt.
Qed.

Lemma random_interval_le (rng : list nat) (max : nat) :
  fst (random_interval rng max) <= max.
Proof.
  destruct rng as [|r rng]; simpl; [lia|].
  pose proof (Nat.mod_upper_bound r (S max)). lia.
Qed.

Lemma shuffle_positions (n : nat) (rng : list nat) (i : nat) (l : list nat) :
  i < n -> positions_of n l -> positions_of n (shuffle rng i l).
Proof.
  revert rng l; induction i as [|i IH]; intros rng l Hi P; simpl; auto.
  pose proof (random_interval_le rng (S i)) as B.
  destruct (random_interval rng (S i)) as [j rng']. simpl in B.
  apply IH; [lia|]. apply swap_positions; auto; lia.
Qed.

Lemma permutation_positions (rng : list nat) (n : nat) :
  positions_of n (permutation rng n).
Proof.
  assert (P : positions_of n (seq 0 n)).
  { repeat split.
    - apply length_seq.
    - apply seq_NoDup.
    - apply Forall_forall. intros x Hx. apply in_seq in Hx. lia. }
  unfold permutation. destruct n as [|n]; [exact P|].
  apply shuffle_positions; [lia | exact P].
Qed.

Lemma rows_take_all (locs : list nat) (df : DataFrame) :
  length locs <= nrows df -> rows (take locs df) = map (iloc df) locs.
Proof.
  intros H. destruct df as [|c df]; [|apply rows_take; discriminate].
  simpl in H. destruct locs; [reflexivity | simpl in H; lia].
Qed.

Lemma choice_Ok (rng : list nat) (population size : nat) :
  size <= population ->
  choice rng population size = Ok (firstn size (permutation rng population)).
Proof.
  intros H. unfold choice.
  destruct (Nat.eqb_spec population 0) as [E|N]; cbn [andb].
  - destruct (Nat.eqb_spec size 0) as [E0|N0]; [|lia]. cbn [negb].
    destruct (Nat.ltb_spec population size); [lia | reflexivity].
  - destruct (Nat.ltb_spec population size); [lia | reflexivity].
Qed.

(** C9: with any random source, sampling [n] rows of a frame with at least
    [n] rows returns the rows at [n] distinct positions of the frame, and
    asking for more rows than the frame has raises [ValueError]: that of an
    empty population when the frame has no row, that of a sample larger than
    the population otherwise. *)
Theorem sample_without_replacement (rng : list nat) (n : nat) (df : DataFrame) :
  (n <= nrows df ->
   exists locs, sample rng n df = Ok (take locs df) /\
     length locs = n /\ NoDup locs /\
     Forall (fun i => i < nrows df) locs /\
     rows (take locs df) = map (iloc df) locs) /\
  (nrows df < n ->
   sample rng n df
   = Raise (ValueError
       (if nrows df =? 0
        then "a must be greater than 0 unless no samples are taken"
        else "Cannot take a larger sample than population when 'replace=False'"))).
Proof.
  unfold sample. split; intros H.
  - rewrite (choice_Ok rng (nrows df) n H). simpl.
    destruct (permutation_positions rng (nrows df)) as (L & D & F).
    set (perm := permutation rng (nrows df)) in *.
    exists (firstn n perm). split; [reflexivity|].
    assert (Ln : length (firstn n perm) = n)
      by (rewrite length_firstn; lia).
    repeat split.
    + exact Ln.
    + apply (NoDup_app_remove_r _ (skipn n perm)). now rewrite firstn_skipn.
    + apply Forall_forall. intros x Hx. rewrite Forall_forall in F.
      apply F. rewrite <- (firstn_skipn n perm). apply in_or_app. now left.
    + apply rows_take_all. lia.
  - unfold choice.
    destruct (Nat.eqb_spec (nrows df) 0) as [E|N]; cbn [andb].
    + destruct (Nat.eqb_spec n 0) as [E0|N0]; [lia | reflexivity].
    + destruct (Nat.ltb_spec (nrows df) n) as [_|C]; [reflexivity | lia].
Qed.


(** *** Outliers *)

Lemma outlier_condition_flag (s : Series) :
  outlier_condition s = map (flag s) s.
Proof. reflexivity. Qed.

Lemma assign_where_map (f : scalar -> bool) (s : Series) (v : scalar) :
  assign_where (map f s) s v = map (fun x => if f x then v else x) s.
Proof. induction s as [|x s IH]; simpl; congruence. Qed.

Lemma replace_outliers_map (s : Series) :
  replace_outliers s = map (fun x => if flag s x then median s else x) s.
Proof.
  unfold replace_outliers. rewrite outlier_condition_flag.
  apply assign_where_map.
Qed.

Lemma bounds_values (s : Series) (q1 q3 : Q) :
  Q1 s = Float q1 -> Q3 s = Float q3 ->
  exists lo hi,
    lower_bound s = Float lo /\ upper_bound s = Float hi /\
    (lo == q1 - (3 # 2) * (q3 - q1))%Q /\ (hi == q3 + (3 # 2) * (q3 - q1))%Q.
Proof.
  intros E1 E3. unfold lower_bound, upper_bound, IQR. rewrite E1, E3. simpl.
  eexists. eexists. split; [reflexivity|]. split; [reflexivity|].
  unfold fsub, fadd, fmul. rewrite !Qred_correct. split; reflexivity.
Qed.

Lemma insert_sorted_perm (x : Q) (l : list Q) :
  Permutation (insert_sorted x l) (x :: l).
Proof.
  induction l as [|y l IH]; simpl; auto.
  destruct (Qle_bool x y); auto.
  apply perm_trans with (y :: x :: l); [now apply perm_skip | apply perm_swap].
Qed.

Lemma sort_perm (l : list Q) : Permutation (sort l) l.
Proof.
  induction l as [|x l IH]; simpl; auto.
  apply perm_trans with (x :: sort l);
    [apply insert_sorted_perm | now apply perm_skip].
Qed.

Lemma insert_sorted_sorted (x : Q) (l : list Q) :
  StronglySorted Qle l -> StronglySorted Qle (insert_sorted x l).
Proof.
  induction 1 as [|y l Srt IH F]; simpl.
  - repeat constructor.
  - destruct (Qle_bool x y) eqn:E.
    + apply Qle_bool_iff in E. constructor; [now constructor|].
      constructor; [assumption|].
      eapply Forall_impl; [|exact F]. intros z Hz. now apply Qle_trans with y.
    + constructor; [assumption|].
      apply (Permutation_Forall (Permutation_sym (insert_sorted_perm x l))).
      constructor; [|assumption].
      apply Qlt_le_weak, Qltb_lt. unfold Qltb. now rewrite E.
Qed.

Lemma sort_sorted (l : list Q) : StronglySorted Qle (sort l).
Proof.
  induction l as [|x l IH]; simpl; [constructor|].
  now apply insert_sorted_sorted.
Qed.

Lemma sorted_nth_le (l : list Q) (a b : nat) :
  StronglySorted Qle l -> a <= b -> b < length l ->
  (nth a l 0 <= nth b l 0)%Q.
Proof.
  intros Srt; revert a b; induction Srt as [|x l Srt IH F]; intros a b Hab Hb;
    simpl in Hb; [lia|].
  destruct a as [|a], b as [|b]; simpl; try lia.
  - apply Qle_refl.
  - rewrite Forall_forall in F. apply F, nth_In. lia.
  - apply IH; lia.
Qed.

Lemma count_le_length (f : Q -> bool) (l : list Q) : count f l <= length l.
Proof. apply filter_length_le. Qed.

Lemma count_perm (f : Q -> bool) (l l' : list Q) :
  Permutation l l' -> count f l = count f l'.
Proof.
  unfold count. induction 1; simpl; auto.
  - destruct (f x); simpl; congruence.
  - destruct (f x), (f y); reflexivity.
  - congruence.
Qed.

Lemma count_map_mono (f : Q -> bool) (g : Q -> Q) (l : list Q) :
  (forall x, f x = true -> f (g x) = true) ->
  count f l <= count f (map g l).
Proof.
  intros H. unfold count. induction l as [|x l IH]; simpl; auto.
  destruct (f x) eqn:E.
  - rewrite (H x E). simpl. lia.
  - destruct (f (g x)); simpl; lia.
Qed.

Lemma count_all (f : Q -> bool) (l : list Q) :
  Forall (fun x => f x = true) l -> count f l = length l.
Proof.
  unfold count. induction 1 as [|x l Hx _ IH]; simpl; auto.
  rewrite Hx. simpl. congruence.
Qed.

(** In a sorted list the numbers not above [m] come first and the numbers
    not below [m] come last. *)
Lemma count_le_from_nth (m : Q) (l : list Q) (k : nat) :
  StronglySorted Qle l -> k < length l -> (nth k l 0 <= m)%Q ->
  k + 1 <= count (le_than m) l.
Proof.
  intros Srt; revert k; induction Srt as [|x l Srt IH F]; intros k Hk H;
    simpl in Hk; [lia|].
  assert (Hx : (x <= nth k (x :: l) 0)%Q).
  { apply (sorted_nth_le (x :: l) 0 k); [now constructor | lia | simpl; lia]. }
  unfold count. simpl. unfold le_than at 1.
  rewrite (proj2 (Qle_bool_iff x m)) by now apply Qle_trans with (nth k (x :: l) 0%Q).
  simpl. destruct k as [|k]; [lia|].
  simpl in H. specialize (IH k ltac:(lia) H). unfold count in IH. lia.
Qed.

Lemma nth_le_from_count (m : Q) (l : list Q) (k : nat) :
  StronglySorted Qle l -> k + 1 <= count (le_than m) l ->
  (nth k l 0 <= m)%Q.
Proof.
  intros Srt; revert k; induction Srt as [|x l Srt IH F]; intros k H.
  - unfold count in H. simpl in H. lia.
  - unfold count in H. simpl in H. unfold le_than at 1 in H.
    destruct (Qle_bool x m) eqn:E; simpl in H.
    + destruct k as [|k]; simpl; [now apply Qle_bool_iff|].
      apply IH. unfold count. lia.
    + assert (Z : count (le_than m) l = 0).
      { rewrite <- Nat.le_0_r. unfold count.
        rewrite filter_none; [simpl; lia|].
        intros y Hy. rewrite Forall_forall in F. specialize (F y Hy).
        unfold le_than. destruct (Qle_bool y m) eqn:Ey; auto.
        apply Qle_bool_iff in Ey.
        assert (C : (x <= m)%Q) by now apply Qle_trans with y.
        apply Qle_bool_iff in C. congruence. }
      unfold count in Z. lia.
Qed.

Lemma count_ge_from_nth (m : Q) (l : list Q) (k : nat) :
  StronglySorted Qle l -> k < length l -> (m <= nth k l 0)%Q ->
  length l - k <= count (ge_than m) l.
Proof.
  intros Srt; revert k; induction Srt as [|x l Srt IH F]; intros k Hk H;
    simpl in Hk; [lia|].
  destruct k as [|k].
  - simpl in H. rewrite count_all; [lia|].
    constructor; [now apply Qle_bool_iff|].
    eapply Forall_impl; [|exact F]. intros y Hy.
    apply Qle_bool_iff. now apply Qle_trans with x.
  - simpl in H. specialize (IH k ltac:(lia) H). unfold count in *. simpl.
    destruct (ge_than m x); simpl; lia.
Qed.

Lemma nth_ge_from_count (m : Q) (l : list Q) (k : nat) :
  StronglySorted Qle l -> k < length l ->
  length l - k <= count (ge_than m) l ->
  (m <= nth k l 0)%Q.
Proof.
  intros Srt; revert k; induction Srt as [|x l Srt IH F]; intros k Hk H;
    simpl in Hk; [lia|].
  unfold count in H. simpl in H. unfold ge_than at 1 in H.
  destruct (Qle_bool m x) eqn:E.
  - apply Qle_bool_iff in E. apply Qle_trans with x; [assumption|].
    apply (sorted_nth_le (x :: l) 0 k); [now constructor | lia | simpl; lia].
  - pose proof (count_le_length (ge_than m) l) as B. unfold count in B.
    destruct k as [|k]; simpl in *; [lia|].
    apply IH; [lia|]. unfold count. lia.
Qed.

Lemma floor_quarter (k : nat) :
  Z.to_nat (Qfloor (of_nat k * (1 # 4))) = k / 4.
Proof.
  unfold Qfloor, Qmult, of_nat, inject_Z. cbn [Qnum Qden].
  change (Z.pos (1 * 4)) with (Z.of_nat 4).
  now rewrite Z.mul_1_r, <- Nat2Z.inj_div, Nat2Z.id.
Qed.

Lemma floor_three_quarters (k : nat) :
  Z.to_nat (Qfloor (of_nat k * (3 # 4))) = (3 * k) / 4.
Proof.
  unfold Qfloor, Qmult, of_nat, inject_Z. cbn [Qnum Qden].
  change (Z.pos (1 * 4)) with (Z.of_nat 4). change 3%Z with (Z.of_nat 3).
  now rewrite <- Nat2Z.inj_mul, <- Nat2Z.inj_div, Nat2Z.id, Nat.mul_comm.
Qed.

Lemma length_sort (l : list Q) : length (sort l) = length l.
Proof. apply Permutation_length, sort_perm. Qed.

(** The interpolated quantile lies between the two order statistics it is
    taken from. *)
Lemma interpolate_between (v : list Q) (q : Q) (lo : nat) :
  StronglySorted Qle v -> v <> [] ->
  Z.to_nat (Qfloor (of_nat (length v - 1) * q)) = lo ->
  lo <= length v - 1 ->
  exists r, interpolate v q = Float r /\
    (nth lo v 0 <= r)%Q /\
    (r <= nth (Nat.min (lo + 1) (length v - 1)) v 0)%Q.
Proof.
  intros Srt Ne Elo Hlo. unfold interpolate.
  destruct (length v) as [|n'] eqn:En.
  { destruct v; [congruence | discriminate]. }
  rewrite Elo.
  set (hi := Nat.min (lo + 1) (S n' - 1)).
  set (pos := (of_nat (S n' - 1) * q)%Q).
  set (a := nth lo v 0%Q). set (b := nth hi v 0%Q).
  set (frac := (pos - inject_Z (Qfloor pos))%Q).
  eexists. split; [reflexivity|]. rewrite Qred_correct.
  assert (Hab : (a <= b)%Q).
  { apply sorted_nth_le; [assumption | unfold hi; lia | unfold hi; lia]. }
  assert (F0 : (0 <= frac)%Q).
  { unfold frac. pose proof (Qfloor_le pos). lra. }
  assert (F1 : (frac <= 1)%Q).
  { unfold frac. pose proof (Qlt_floor pos) as L.
    rewrite inject_Z_plus in L. change (inject_Z 1) with 1%Q in L. lra. }
  split; nra.
Qed.

Lemma middle_between (v : list Q) :
  StronglySorted Qle v -> v <> [] ->
  let n := length v in
  exists m, middle v = Float m /\
    (nth ((n - 1) / 2) v 0 <= m)%Q /\ (m <= nth (n / 2) v 0)%Q.
Proof.
  intros Srt Ne n. unfold middle. fold n.
  destruct n as [|n'] eqn:En.
  { destruct v; [congruence | discriminate]. }
  destruct (Nat.even (S n')) eqn:Ev.
  - eexists. split; [reflexivity|].
    apply Nat.even_spec in Ev. destruct Ev as [h Eh].
    replace ((S n' - 1) / 2) with (S n' / 2 - 1) by lia.
    set (a := nth (S n' / 2 - 1) v 0%Q). set (b := nth (S n' / 2) v 0%Q).
    assert (Hab : (a <= b)%Q).
    { apply sorted_nth_le; [assumption | lia | lia]. }
    unfold fdiv, fadd. rewrite !Qred_correct.
    split; [apply Qle_shift_div_l | apply Qle_shift_div_r]; lra.
  - eexists. split; [reflexivity|].
    assert (Od : Nat.odd (S n') = true) by (rewrite <- Nat.negb_even, Ev; reflexivity).
    apply Nat.odd_spec in Od. destruct Od as [h Eh].
    replace ((S n' - 1) / 2) with (S n' / 2) by lia.
    rewrite Qred_correct. split; apply Qle_refl.
Qed.

Lemma flag_not_a_number (s : Series) (x : scalar) :
  to_num x = None -> flag s x = false.
Proof.
  intros E. unfold flag, gt_scalar, lt_scalar. rewrite E.
  now destruct (to_num (lower_bound s)), (to_num (upper_bound s)).
Qed.

Lemma flag_to_num (s : Series) (x y : scalar) :
  to_num x = to_num y -> flag s x = flag s y.
Proof. intros E. unfold flag, gt_scalar, lt_scalar. now rewrite E. Qed.

Lemma valid_In (s : Series) (x : scalar) (v : Q) :
  In x s -> to_num x = Some v -> In v (valid s).
Proof.
  induction s as [|c s IH]; simpl; [tauto|]. intros [->|H] E.
  - destruct x; simpl in E; try discriminate; injection E as <-; now left.
  - destruct c; simpl; auto.
Qed.

(** The numbers of the series after the replacement by [m]. *)
Lemma valid_replaced (s s0 : Series) (m : Q) :
  valid (map (fun x => if flag s0 x then Float m else x) s)
  = map (fun q => if flag s0 (Float q) then m else q) (valid s).
Proof.
  induction s as [|c s IH]; simpl; auto.
  destruct c as [|q|z|t]; simpl.
  - rewrite flag_not_a_number by reflexivity. exact IH.
  - destruct (flag s0 (Float q)); simpl; now rewrite IH.
  - rewrite (flag_to_num s0 (Int z) (Float (inject_Z z))) by reflexivity.
    destruct (flag s0 (Float (inject_Z z))); simpl; now rewrite IH.
  - rewrite flag_not_a_number by reflexivity. exact IH.
Qed.

Lemma interpolate_one (a : Q) :
  (exists r, interpolate [a] (1 # 4) = Float r /\ (r == a)%Q) /\
  (exists r, interpolate [a] (3 # 4) = Float r /\ (r == a)%Q).
Proof.
  split; (exists (Qred (a + (a - a) * (0 # 4))); split; [reflexivity|]);
    rewrite Qred_correct; ring.
Qed.

Lemma interpolate_pair (a b : Q) :
  interpolate [a; b] (1 # 4) = Float (Qred (a + (b - a) * (1 # 4))) /\
  interpolate [a; b] (3 # 4) = Float (Qred (a + (b - a) * (3 # 4))).
Proof. split; reflexivity. Qed.

Lemma sort_pair (a b : Q) :
  exists lo hi, sort [a; b] = [lo; hi] /\ (lo <= hi)%Q /\
    (forall x, In x [a; b] -> (lo <= x <= hi)%Q).
Proof.
  simpl. destruct (Qle_bool a b) eqn:E.
  - apply Qle_bool_iff in E. exists a, b. split; [reflexivity|].
    split; [assumption|]. intros x [<-|[<-|[]]]; lra.
  - assert (L : (b < a)%Q) by (apply Qltb_lt; unfold Qltb; now rewrite E).
    exists b, a. split; [reflexivity|].
    split; [lra|]. intros x [<-|[<-|[]]]; lra.
Qed.

(** A series with at most two numbers has no outlier. *)
Lemma no_outlier_small (s : Series) (x : scalar) :
  In x s -> length (valid s) <= 2 -> flag s x = false.
Proof.
  intros Hx Hn. destruct (to_num x) as [v|] eqn:Ev;
    [|now apply flag_not_a_number].
  pose proof (valid_In s x v Hx Ev) as Hv.
  unfold flag, gt_scalar, lt_scalar, lower_bound, upper_bound, IQR, Q1, Q3,
    quantile.
  rewrite Ev.
  destruct (valid s) as [|a [|b [|c l]]]; simpl in Hn; try lia.
  - destruct Hv.
  - destruct Hv as [<-|[]]. cbn [sort insert_sorted].
    destruct (interpolate_one a) as [(r1 & -> & E1) (r3 & -> & E3)].
    cbn [lift2 to_num].
    apply orb_false_iff. rewrite !Qltb_ge. unfold fsub, fadd, fmul.
    rewrite !Qred_correct. split; lra.
  - destruct (sort_pair a b) as (lo & hi & -> & Hlh & Hin).
    specialize (Hin v Hv).
    destruct (interpolate_pair lo hi) as [-> ->].
    cbn [lift2 to_num].
    apply orb_false_iff. rewrite !Qltb_ge. unfold fsub, fadd, fmul.
    rewrite !Qred_correct. split; lra.
Qed.

Lemma le_than_refl (m : Q) : le_than m m = true.
Proof. apply Qle_bool_iff, Qle_refl. Qed.

Lemma ge_than_refl (m : Q) : ge_than m m = true.
Proof. apply Qle_bool_iff, Qle_refl. Qed.

Lemma nth_true_lt (mask : list bool) (i : nat) :
  nth i mask false = true -> i < length mask.
Proof.
  intros H. destruct (Nat.lt_ge_cases i (length mask)) as [L|G]; auto.
  rewrite nth_overflow in H by assumption. discriminate.
Qed.

(** The median of a series with at least three numbers lies between the
    first and the third quartile of the series in which any set of values
    was replaced by that median. *)
Lemma median_between_new_quartiles (s : Series) (m : Q) (g : Q -> Q)
    (s' : Series) :
  3 <= length (valid s) ->
  median s = Float m ->
  valid s' = map g (valid s) ->
  (forall q, g q = q \/ g q = m) ->
  exists q1 q3, Q1 s' = Float q1 /\ Q3 s' = Float q3 /\
    (q1 <= m)%Q /\ (m <= q3)%Q.
Proof.
  intros Hn Em Ev Hg.
  set (v := sort (valid s)). set (v' := sort (valid s')).
  set (n := length (valid s)) in *.
  assert (Ln : length v = n) by apply length_sort.
  assert (Ln' : length v' = n).
  { unfold v'. now rewrite length_sort, Ev, length_map. }
  assert (Srt : StronglySorted Qle v) by apply sort_sorted.
  assert (Srt' : StronglySorted Qle v') by apply sort_sorted.
  assert (Ne : v <> []) by (intros E; rewrite E in Ln; simpl in Ln; lia).
  assert (Ne' : v' <> []) by (intros E; rewrite E in Ln'; simpl in Ln'; lia).
  destruct (middle_between v Srt Ne) as (m' & Em' & Lm & Um).
  unfold median in Em. fold v in Em. rewrite Em in Em'.
  injection Em' as <-. rewrite Ln in Lm, Um.
  (* the numbers on either side of the median, before and after *)
  assert (CL : (n - 1) / 2 + 1 <= count (le_than m) v').
  { apply Nat.le_trans with (count (le_than m) v).
    - apply count_le_from_nth; [assumption | lia | assumption].
    - unfold v, v'. rewrite !(count_perm _ _ _ (sort_perm _)), Ev.
      apply count_map_mono. intros q Hq.
      destruct (Hg q) as [-> | ->]; [assumption | apply le_than_refl]. }
  assert (CG : n - n / 2 <= count (ge_than m) v').
  { apply Nat.le_trans with (count (ge_than m) v).
    - rewrite <- Ln at 1. apply count_ge_from_nth; [assumption | lia | assumption].
    - unfold v, v'. rewrite !(count_perm _ _ _ (sort_perm _)), Ev.
      apply count_map_mono. intros q Hq.
      destruct (Hg q) as [-> | ->]; [assumption | apply ge_than_refl]. }
  destruct (interpolate_between v' (1 # 4) ((n - 1) / 4) Srt' Ne')
    as (q1 & E1 & _ & U1);
    [rewrite Ln'; apply floor_quarter | lia |].
  destruct (interpolate_between v' (3 # 4) (3 * (n - 1) / 4) Srt' Ne')
    as (q3 & E3 & L3 & _);
    [rewrite Ln'; apply floor_three_quarters | lia |].
  exists q1, q3. split; [exact E1|]. split; [exact E3|]. split.
  - apply Qle_trans with (1 := U1).
    apply nth_le_from_count; [assumption | lia].
  - apply Qle_trans with (2 := L3).
    apply nth_ge_from_count; [assumption | lia | lia].
Qed.









(** C7, as the code has it, on a float column of whole numbers of
    magnitude at most 2^40 and missing values: a value that the replacement
    overwrote is the median of the original column, and the same detection
    run on the resulting column does not flag it: the median lies between
    the recomputed quartiles, hence within the recomputed bounds.  (A value
    that was not flagged the first time can be flagged by the second run.)
    On the salary column of the script neither run flags a value and the
    replacement changes nothing. *)
Theorem replaced_values_not_flagged_again (s : Series) (i : nat) :
  small_integers s = true ->
  nth i (outlier_condition s) false = true ->
  nth i (replace_outliers s) NaN = median s /\
  nth i (outlier_condition (replace_outliers s)) false = false /\
  outlier_condition salary_filled = repeat false 5 /\
  replace_outliers salary_filled = salary_filled /\
  outlier_condition (replace_outliers salary_filled) = repeat false 5.
Proof.
  intros _ H.
  split; [|split; [|repeat split; vm_compute; reflexivity]].
  - pose proof (nth_true_lt _ _ H) as Hi.
    unfold outlier_condition in Hi. rewrite length_map in Hi.
    destruct (nth_error s i) as [x|] eqn:Ex;
      [|apply nth_error_None in Ex; lia].
    rewrite outlier_condition_flag, (nth_map_at _ false _ _ _ Ex) in H.
    rewrite replace_outliers_map, (nth_map_at _ NaN _ _ _ Ex). now rewrite H.
  - pose proof (nth_true_lt _ _ H) as Hi.
    unfold outlier_condition in Hi. rewrite length_map in Hi.
    destruct (nth_error s i) as [x|] eqn:Ex;
      [|apply nth_error_None in Ex; lia].
    rewrite outlier_condition_flag, (nth_map_at _ false _ _ _ Ex) in H.
    assert (Hn : 3 <= length (valid s)).
    { destruct (Nat.le_gt_cases (length (valid s)) 2) as [C|C]; [|lia].
      rewrite (no_outlier_small s x) in H; [discriminate | | assumption].
      now apply nth_error_In with i. }
    destruct (middle_between (sort (valid s)) (sort_sorted _)) as (m & Em & _).
    { intros E. pose proof (length_sort (valid s)) as L. rewrite E in L.
      simpl in L. lia. }
    fold (median s) in Em.
    set (s' := replace_outliers s).
    assert (Es' : s' = map (fun y => if flag s y then Float m else y) s).
    { unfold s'. now rewrite replace_outliers_map, Em. }
    assert (Ex' : nth_error s' i = Some (Float m)).
    { rewrite Es', nth_error_map, Ex. simpl. now rewrite H. }
    rewrite outlier_condition_flag, (nth_map_at _ false _ _ _ Ex').
    destruct (median_between_new_quartiles s m
                (fun q => if flag s (Float q) then m else q) s' Hn Em)
      as (q1 & q3 & E1 & E3 & L1 & L3).
    { rewrite Es'. apply valid_replaced. }
    { intros q. destruct (flag s (Float q)); auto. }
    destruct (bounds_values s' q1 q3 E1 E3) as (lo & hi & Elo & Ehi & Hlo & Hhi).
    unfold flag, gt_scalar, lt_scalar. rewrite Elo, Ehi. cbn [to_num].
    apply orb_false_iff. rewrite !Qltb_ge, Hlo, Hhi. split; lra.
Qed.

Lemma replaced_values_not_flagged_again_witness :
  nth 3 (replace_outliers series_0_3_4_12) NaN = median series_0_3_4_12 /\
  nth 3 (outlier_condition (replace_outliers series_0_3_4_12)) false = false /\
  outlier_condition salary_filled = repeat false 5 /\
  replace_outliers salary_filled = salary_filled /\
  outlier_condition (replace_outliers salary_filled) = repeat false 5.
Proof.
  apply (replaced_values_not_flagged_again series_0_3_4_12 3); reflexivity.
Defined.

(** C7 as stated fails: in the column [0, 3, 4, 12] only 12 is flagged (the
    bounds are -3.375 and 11.625, the quartiles 2.25 and 6); it is replaced
    by the median 3.5, and in the resulting column [0, 3, 4, 3.5], whose
    quartiles are 2.25 and 3.625 and whose lower bound is 0.1875, the same
    detection flags 0. *)
Lemma redetection_counterexample :
  IQR series_0_3_4_12 = Float (15#4) /\
  outlier_condition series_0_3_4_12 = [false; false; false; true] /\
  replace_outliers series_0_3_4_12
  = [Float (0#1); Float (3#1); Float (4#1); Float (7#2)] /\
  IQR (replace_outliers series_0_3_4_12) = Float (11#8) /\
  lower_bound (replace_outliers series_0_3_4_12) = Float (3#16) /\
  outlier_condition (replace_outliers series_0_3_4_12)
  = [true; false; false; false].
Proof. repeat split; vm_compute; reflexivity. Qed.

(** ** Further properties of the stages *)

(** *** Columns of a frame *)

Lemma getitem_Ok_In (df : DataFrame) (n : string) (s : Series) :
  getitem df n = Ok s -> In (n, s) df.
Proof.
  induction df as [|[m c] df IH]; simpl; [discriminate|].
  destruct (String.eqb_spec m n) as [->|N].
  - intros [= ->]. now left.
  - intros H. right. now apply IH.
Qed.

Lemma getitem_absent (df : DataFrame) (n : string) :
  ~ In n (map fst df) -> getitem df n = Raise (KeyError n).
Proof.
  induction df as [|[m c] df IH]; simpl; auto. intros H.
  destruct (String.eqb_spec m n) as [E|N]; [tauto|]. apply IH. tauto.
Qed.

Lemma setitem_same (df : DataFrame) (n : string) (s : Series) :
  getitem df n = Ok s -> setitem df n s = df.
Proof.
  induction df as [|[m c] df IH]; simpl; [discriminate|].
  destruct (String.eqb_spec m n) as [->|N].
  - now intros [= ->].
  - intros H. now rewrite IH.
Qed.

Lemma getitem_setitem (df : DataFrame) (n m : string) (s : Series) :
  getitem (setitem df n s) m = if String.eqb n m then Ok s else getitem df m.
Proof.
  induction df as [|[k c] df IH]; simpl.
  - destruct (String.eqb_spec n m) as [->|N]; reflexivity.
  - destruct (String.eqb_spec k n) as [->|Nk]; simpl.
    + destruct (String.eqb_spec n m) as [->|N]; reflexivity.
    + destruct (String.eqb_spec k m) as [->|Nm].
      * destruct (String.eqb_spec n m) as [->|N]; [congruence | reflexivity].
      * exact IH.
Qed.

Lemma setitem_names (df : DataFrame) (n : string) (s : Series) :
  map fst (setitem df n s)
  = if existsb (String.eqb n) (map fst df) then map fst df
    else map fst df ++ [n].
Proof.
  induction df as [|[k c] df IH]; simpl; auto.
  rewrite (String.eqb_sym n k).
  destruct (String.eqb k n); simpl; [reflexivity|].
  rewrite IH. now destruct (existsb (String.eqb n) (map fst df)).
Qed.

Lemma setitem_uniform (N : nat) (df : DataFrame) (n : string) (s : Series) :
  Forall (fun col => length (snd col) = N) df -> length s = N ->
  Forall (fun col : string * Series => length (snd col) = N) (setitem df n s).
Proof.
  intros F L. induction F as [|[k c] l Hk F IH]; simpl.
  - now repeat constructor.
  - destruct (String.eqb k n); constructor; auto.
Qed.

Lemma setitem_nonempty (df : DataFrame) (n : string) (s : Series) :
  setitem df n s <> [].
Proof.
  destruct df as [|[k c] df]; simpl; [discriminate|].
  destruct (String.eqb k n); discriminate.
Qed.

(** X1: assigning a column of the length of the frame and reading the frame
    back.  After [df[n] = s] the column [n] is [s] and every other name
    reads as before; an existing column is overwritten where it stands and a
    new one is added last; the columns still have one length and the frame
    as many rows as before. *)
Theorem setitem_then_getitem (df : DataFrame) (n : string) (s : Series) :
  wf df -> df <> [] -> length s = nrows df ->
  (forall m, getitem (setitem df n s) m
             = if String.eqb n m then Ok s else getitem df m) /\
  map fst (setitem df n s)
  = (if existsb (String.eqb n) (map fst df) then map fst df
     else map fst df ++ [n]) /\
  wf (setitem df n s) /\ nrows (setitem df n s) = nrows df.
Proof.
  intros W Ne L.
  split; [intros m; apply getitem_setitem|].
  split; [apply setitem_names|].
  apply uniform_frame; [apply setitem_nonempty|].
  now apply setitem_uniform.
Qed.

Lemma setitem_then_getitem_witness :
  (forall m, getitem (setitem df_filled "Age Group" age_filled) m
             = if String.eqb "Age Group" m then Ok age_filled
               else getitem df_filled m) /\
  map fst (setitem df_filled "Age Group" age_filled)
  = (if existsb (String.eqb "Age Group") (map fst df_filled)
     then map fst df_filled else map fst df_filled ++ ["Age Group"]) /\
  wf (setitem df_filled "Age Group" age_filled) /\
  nrows (setitem df_filled "Age Group" age_filled) = nrows df_filled.
Proof.
  apply (setitem_then_getitem df_filled "Age Group" age_filled).
  - repeat constructor.
  - discriminate.
  - reflexivity.
Defined.

(** X2: a column lookup raises [KeyError], with the name asked for, exactly
    when the frame has no column of that name, and otherwise returns a
    column that the frame holds under that name. *)
Theorem getitem_KeyError_iff (df : DataFrame) (n : string) :
  (getitem df n = Raise (KeyError n) <-> ~ In n (map fst df)) /\
  (In n (map fst df) -> exists s, getitem df n = Ok s /\ In (n, s) df) /\
  (forall e, getitem df n = Raise e -> e = KeyError n).
Proof.
  assert (P : In n (map fst df) -> exists s, getitem df n = Ok s /\ In (n, s) df).
  { intros H. destruct (getitem_present df n H) as [s [G _]].
    exists s. split; [assumption | now apply getitem_Ok_In]. }
  split; [split|split].
  - intros E H. destruct (P H) as [s [G _]]. congruence.
  - apply getitem_absent.
  - exact P.
  - intros e E. destruct (in_dec string_dec n (map fst df)) as [I|N].
    + destruct (P I) as [s [G _]]. congruence.
    + rewrite (getitem_absent df n N) in E. congruence.
Qed.

(** *** Missing values *)

Lemma fillna_notna (s : Series) (v : scalar) :
  notna v = true -> forallb notna (fillna s v) = true.
Proof.
  intros Hv. induction s as [|c s IH]; simpl; auto.
  rewrite IH, andb_true_r. destruct c; simpl; auto.
Qed.

Lemma fillna_clean (s : Series) (v : scalar) :
  forallb notna s = true -> fillna s v = s.
Proof.
  induction s as [|c s IH]; simpl; auto. intros H.
  apply andb_true_iff in H. destruct H as [Hc Hs].
  rewrite (IH Hs). destruct c; try reflexivity. discriminate.
Qed.

Lemma fillna_NaN (s : Series) : fillna s NaN = s.
Proof. induction s as [|c s IH]; simpl; auto. rewrite IH. now destruct c. Qed.

(** X3: filling with a value that is not missing leaves no missing entry,
    keeps the length and every present entry, and filling the result again
    with any value changes nothing. *)
Theorem fillna_no_missing (s : Series) (v w : scalar) :
  notna v = true ->
  forallb notna (fillna s v) = true /\
  length (fillna s v) = length s /\
  select (map notna s) (fillna s v) = select (map notna s) s /\
  fillna (fillna s v) w = fillna s v.
Proof.
  intros Hv. split; [now apply fillna_notna|].
  split; [apply length_map|]. split.
  - induction s as [|c s IH]; simpl; auto. destruct c; simpl; now rewrite IH.
  - apply fillna_clean. now apply fillna_notna.
Qed.

Lemma fillna_no_missing_witness :
  let s := [Float (25#1); NaN; Float (35#1); Obj "x"] in
  forallb notna (fillna s (Float (30#1))) = true /\
  length (fillna s (Float (30#1))) = length s /\
  select (map notna s) (fillna s (Float (30#1))) = select (map notna s) s /\
  fillna (fillna s (Float (30#1))) NaN = fillna s (Float (30#1)).
Proof.
  apply (fillna_no_missing [Float (25#1); NaN; Float (35#1); Obj "x"]
           (Float (30#1)) NaN).
  reflexivity.
Defined.

(** X4: a column in which every entry is missing has a missing mean and a
    missing median, and filling it with either raises nothing and leaves the
    frame as it was: the missing entries stay missing. *)
Theorem fill_column_all_missing (df : DataFrame) (name : string) (s : Series) :
  getitem df name = Ok s ->
  forallb isna s = true ->
  mean s = NaN /\ median s = NaN /\
  fill_column mean name df = Ok df /\
  fill_column median name df = Ok df.
Proof.
  intros G A.
  assert (V : valid s = []).
  { clear G. induction s as [|c s IH]; simpl in *; auto.
    apply andb_true_iff in A. destruct A as [Ac As].
    destruct c; try discriminate. now apply IH. }
  assert (Em : mean s = NaN) by (unfold mean; now rewrite V).
  assert (Ed : median s = NaN) by (unfold median; now rewrite V).
  repeat split; auto; unfold fill_column; rewrite G; simpl.
  - now rewrite Em, fillna_NaN, (setitem_same df name s G).
  - now rewrite Ed, fillna_NaN, (setitem_same df name s G).
Qed.

Lemma fill_column_all_missing_witness :
  let df := [("Name", [Obj "Alice"; Obj "Bob"]); ("Age", [NaN; NaN])] in
  mean [NaN; NaN] = NaN /\ median [NaN; NaN] = NaN /\
  fill_column mean "Age" df = Ok df /\
  fill_column median "Age" df = Ok df.
Proof.
  apply (fill_column_all_missing
           [("Name", [Obj "Alice"; Obj "Bob"]); ("Age", [NaN; NaN])]
           "Age" [NaN; NaN]); reflexivity.
Defined.

Lemma sorted_bounds (l : list Q) :
  l <> [] ->
  let v := sort l in
  In (nth 0 v 0%Q) l /\ In (nth (length l - 1) v 0%Q) l /\
  Forall (fun x => nth 0 v 0 <= x <= nth (length l - 1) v 0)%Q l.
Proof.
  intros Ne v.
  assert (L : length v = length l) by apply length_sort.
  assert (P : length l <> 0) by (destruct l; [congruence | discriminate]).
  assert (I : forall k, k < length l -> In (nth k v 0%Q) l).
  { intros k Hk. apply (Permutation_in _ (sort_perm l)). apply nth_In.
    fold v. lia. }
  split; [apply I; lia|]. split; [apply I; lia|].
  apply Forall_forall. intros x Hx.
  apply (Permutation_in _ (Permutation_sym (sort_perm l))) in Hx.
  fold v in Hx. destruct (In_nth _ _ 0%Q Hx) as [k [Hk <-]].
  split; apply sorted_nth_le; try apply sort_sorted; fold v; lia.
Qed.

(** X5: on a float column of whole numbers of magnitude at most 2^40 and
    missing values, with at least one number, the median is a number
    between the smallest and the largest number of the column, and filling
    with it leaves no missing entry and keeps every number where it is. *)
Theorem fill_value_in_range (s : Series) :
  small_integers s = true ->
  valid s <> [] ->
  exists d lo hi,
    median s = Float d /\
    In lo (valid s) /\ In hi (valid s) /\
    Forall (fun x => lo <= x <= hi)%Q (valid s) /\
    (lo <= d <= hi)%Q /\
    forallb notna (fillna s (median s)) = true /\
    length (fillna s (median s)) = length s /\
    (forall i x, nth_error s i = Some (Float x) ->
       nth_error (fillna s (median s)) i = Some (Float x)) /\
    (forall i, nth_error s i = Some NaN ->
       nth_error (fillna s (median s)) i = Some (Float d)).
Proof.
  intros _ Ne.
  destruct (sorted_bounds (valid s) Ne) as (Ilo & Ihi & F).
  set (v := sort (valid s)) in *. set (n := length (valid s)) in *.
  assert (Ln : length v = n) by apply length_sort.
  assert (Pn : 0 < n) by (unfold n; destruct (valid s); [congruence | simpl; lia]).
  assert (Nv : v <> []) by (intros E; rewrite E in Ln; simpl in Ln; lia).
  destruct (middle_between v (sort_sorted _) Nv) as (d & Ed & Ld & Ud).
  change (middle v) with (median s) in Ed. rewrite Ln in Ld, Ud.
  exists d, (nth 0 v 0%Q), (nth (n - 1) v 0%Q).
  split; [exact Ed|].
  split; [exact Ilo|]. split; [exact Ihi|]. split; [exact F|].
  split; [|split; [|split; [|split]]].
  - split.
    + apply Qle_trans with (2 := Ld).
      apply sorted_nth_le; [apply sort_sorted | lia | fold v; lia].
    + apply Qle_trans with (1 := Ud).
      apply sorted_nth_le; [apply sort_sorted | lia | fold v; lia].
  - rewrite Ed. now apply fillna_notna.
  - unfold fillna. apply length_map.
  - intros i x E. unfold fillna. now rewrite nth_error_map, E.
  - intros i E. unfold fillna. rewrite nth_error_map, E. simpl. now rewrite Ed.
Qed.

Lemma fill_value_in_range_witness :
  let s := [Float (25#1); NaN; Float (35#1)] in
  exists d lo hi,
    median s = Float d /\
    In lo (valid s) /\ In hi (valid s) /\
    Forall (fun x => lo <= x <= hi)%Q (valid s) /\
    (lo <= d <= hi)%Q /\
    forallb notna (fillna s (median s)) = true /\
    length (fillna s (median s)) = length s /\
    (forall i x, nth_error s i = Some (Float x) ->
       nth_error (fillna s (median s)) i = Some (Float x)) /\
    (forall i, nth_error s i = Some NaN ->
       nth_error (fillna s (median s)) i = Some (Float d)).
Proof.
  apply (fill_value_in_range [Float (25#1); NaN; Float (35#1)]).
  - reflexivity.
  - discriminate.
Defined.

(** *** Rows with missing values *)


Lemma select_mask_map {A B : Type} (p : B -> bool) (f : A -> B) (l : list A) :
  select (map (fun x => p (f x)) l) (map f l) = filter p (map f l).
Proof.
  induction l as [|x l IH]; simpl; auto. now rewrite IH.
Qed.

Lemma column_cell_in_row (df : DataFrame) (col : string * Series) (i : nat) :
  In col df -> In (nth i (snd col) NaN) (iloc df i).
Proof.
  intros H. unfold iloc.
  apply (in_map (fun c : string * Series => nth i (snd c) NaN)) in H. exact H.
Qed.

Lemma rows_dropna (df : DataFrame) :
  wf df ->
  rows (dropna df) = filter (fun r => negb (existsb isna r)) (rows df).
Proof.
  intros W. unfold dropna. rewrite rows_select_rows; auto.
  - unfold rows, row_has_na.
    apply (select_mask_map (fun r => negb (existsb isna r)) (iloc df)).
  - now rewrite length_map, length_seq.
Qed.

Lemma wf_dropna (df : DataFrame) : wf df -> wf (dropna df).
Proof.
  intros W. apply wf_select_rows; auto. now rewrite length_map, length_seq.
Qed.

Lemma clean_rows_clean_columns (df : DataFrame) :
  wf df ->
  Forall (fun r => existsb isna r = false) (rows df) ->
  Forall (fun col => forallb notna (snd col) = true) df.
Proof.
  intros W F. apply Forall_forall. intros col Hc.
  apply forallb_forall. intros x Hx.
  destruct (In_nth _ _ NaN Hx) as [i [Hi <-]].
  unfold wf in W. rewrite Forall_forall in W. rewrite (W col Hc) in Hi.
  rewrite Forall_forall in F.
  assert (R : In (iloc df i) (rows df)).
  { unfold rows. apply in_map, in_seq. lia. }
  specialize (F _ R).
  destruct (isna (nth i (snd col) NaN)) eqn:E; unfold notna; rewrite E; auto.
  assert (C : existsb isna (iloc df i) = true).
  { apply existsb_exists. exists (nth i (snd col) NaN).
    split; [now apply column_cell_in_row | assumption]. }
  congruence.
Qed.

Lemma clean_columns_clean_rows (df : DataFrame) (i : nat) :
  Forall (fun col => forallb notna (snd col) = true) df ->
  i < nrows df -> wf df ->
  row_has_na df i = false.
Proof.
  intros F Hi W. unfold row_has_na, iloc.
  destruct (existsb isna _) eqn:E; auto.
  apply existsb_exists in E. destruct E as [x [Hx Nx]].
  apply in_map_iff in Hx. destruct Hx as [col [<- Hc]].
  rewrite Forall_forall in F. specialize (F col Hc).
  rewrite forallb_forall in F.
  unfold wf in W. rewrite Forall_forall in W.
  assert (I : In (nth i (snd col) NaN) (snd col))
    by (apply nth_In; rewrite (W col Hc); exact Hi).
  specialize (F _ I). unfold notna in F. rewrite Nx in F. discriminate.
Qed.

Lemma select_rows_all (df : DataFrame) :
  wf df -> select_rows (repeat true (nrows df)) df = df.
Proof.
  intros W. unfold select_rows.
  transitivity (map (fun col : string * Series => col) df); [|apply map_id].
  apply map_ext_in. intros [n s] Hc. simpl.
  unfold wf in W. rewrite Forall_forall in W.
  rewrite <- (W _ Hc). simpl. now rewrite select_all_true.
Qed.

(** X6: on a frame whose columns have one length, [dropna] keeps exactly
    the rows without a missing value, in their order; the result has columns
    of one length again and no missing value in any column, and has at most
    as many rows as the frame. *)
Theorem dropna_keeps_complete_rows (df : DataFrame) :
  wf df ->
  rows (dropna df) = filter (fun r => negb (existsb isna r)) (rows df) /\
  wf (dropna df) /\
  Forall (fun col => forallb notna (snd col) = true) (dropna df) /\
  map fst (dropna df) = map fst df /\
  nrows (dropna df) <= nrows df.
Proof.
  intros W. pose proof (rows_dropna df W) as R.
  pose proof (wf_dropna df W) as W'.
  split; [exact R|]. split; [exact W'|]. split; [|split].
  - apply clean_rows_clean_columns; [exact W'|]. rewrite R.
    apply Forall_forall. intros r Hr. apply filter_In in Hr.
    destruct Hr as [_ Hr]. now apply negb_true_iff.
  - unfold dropna, select_rows. rewrite map_map. reflexivity.
  - rewrite <- !length_rows, R. apply filter_length_le.
Qed.

Lemma dropna_keeps_complete_rows_witness :
  rows (dropna df0) = filter (fun r => negb (existsb isna r)) (rows df0) /\
  wf (dropna df0) /\
  Forall (fun col => forallb notna (snd col) = true) (dropna df0) /\
  map fst (dropna df0) = map fst df0 /\
  nrows (dropna df0) <= nrows df0.
Proof.
  apply (dropna_keeps_complete_rows df0). repeat constructor.
Defined.

Lemma map_all_true {A : Type} (f : A -> bool) (l : list A) :
  (forall x, In x l -> f x = true) -> map f l = repeat true (length l).
Proof.
  induction l as [|x l IH]; simpl; auto. intros H.
  rewrite (H x) by now left. f_equal. apply IH. intros y Hy. apply H. now right.
Qed.

Lemma dropna_clean (df : DataFrame) :
  wf df -> Forall (fun col => forallb notna (snd col) = true) df ->
  dropna df = df.
Proof.
  intros W F. unfold dropna. rewrite map_all_true.
  - rewrite length_seq. now apply select_rows_all.
  - intros i Hi. apply in_seq in Hi. apply negb_true_iff.
    apply clean_columns_clean_rows; auto. lia.
Qed.

(** X7: a frame without a missing value is returned unchanged by [dropna],
    and [dropna] applied twice is [dropna] applied once. *)
Theorem dropna_without_missing (df : DataFrame) :
  wf df ->
  (Forall (fun col => forallb notna (snd col) = true) df -> dropna df = df) /\
  dropna (dropna df) = dropna df.
Proof.
  intros W. split; [now apply dropna_clean|].
  apply dropna_clean; [now apply wf_dropna|].
  apply clean_rows_clean_columns; [now apply wf_dropna|].
  rewrite (rows_dropna df W).
  apply Forall_forall. intros r Hr. apply filter_In in Hr.
  destruct Hr as [_ Hr]. now apply negb_true_iff.
Qed.

Lemma dropna_without_missing_witness :
  (Forall (fun col => forallb notna (snd col) = true) df0 -> dropna df0 = df0) /\
  dropna (dropna df0) = dropna df0.
Proof.
  apply (dropna_without_missing df0). repeat constructor.
Defined.

(** *** Appending a row and removing duplicates *)






Section Appended.
Context {A : Type} (eqb : A -> A -> bool).
Hypothesis eqb_trans :
  forall x y z, eqb x y = true -> eqb y z = true -> eqb x z = true.



End Appended.




(** *** Renaming and casting *)


Lemma rename_names (mapping : list (string * string)) (df : DataFrame) :
  map fst (rename mapping df) = map (lookup_name mapping) (map fst df).
Proof. unfold rename. now rewrite !map_map. Qed.

Lemma lookup_column_names (k : string) :
  lookup_name column_names k
  = if String.eqb "Name" k then "Employee Name"
    else if String.eqb "Salary" k then "Annual Salary" else k.
Proof. reflexivity. Qed.


Lemma renamed_never (k : string) :
  lookup_name column_names k <> "Salary" /\
  lookup_name column_names k <> "Name".
Proof.
  rewrite lookup_column_names.
  destruct (String.eqb_spec "Name" k) as [E|N1]; [split; discriminate|].
  destruct (String.eqb_spec "Salary" k) as [E|N2]; [split; discriminate|].
  split; congruence.
Qed.

Lemma getitem_renamed_old (df : DataFrame) :
  getitem (rename column_names df) "Salary" = Raise (KeyError "Salary") /\
  getitem (rename column_names df) "Name" = Raise (KeyError "Name").
Proof.
  split; apply getitem_absent; rewrite rename_names; intros H;
    apply in_map_iff in H; destruct H as [k [E _]];
    now destruct (renamed_never k).
Qed.


(** X10: the casts of stage 5 never succeed on a frame renamed by stage 4,
    whatever the frame: when the cast of [Age] succeeds, the cast that
    follows looks the column [Salary] up, which the renaming has removed, and
    raises [KeyError]. *)
Theorem stage5_after_rename_raises (df : DataFrame) :
  (forall d, stage5 (rename column_names df) <> Ok d) /\
  (forall d, cast_column to_int "Age" (rename column_names df) = Ok d ->
     stage5 (rename column_names df) = Raise (KeyError "Salary")).
Proof.
  assert (K : forall d, cast_column to_int "Age" (rename column_names df) = Ok d ->
     stage5 (rename column_names df) = Raise (KeyError "Salary")).
  { intros d E. unfold stage5. rewrite E. simpl.
    unfold cast_column in E |- *.
    destruct (getitem (rename column_names df) "Age") as [s|e]; simpl in E;
      [|discriminate].
    destruct (astype to_int s) as [s'|e]; simpl in E; [|discriminate].
    injection E as <-. rewrite getitem_setitem. simpl.
    now rewrite (proj1 (getitem_renamed_old df)). }
  split; [|exact K].
  intros d E. unfold stage5 in E.
  destruct (cast_column to_int "Age" (rename column_names df)) as [d'|e] eqn:C;
    simpl in E; [|discriminate].
  specialize (K d' eq_refl). unfold stage5 in K. rewrite C in K. simpl in K.
  congruence.
Qed.

Lemma to_int_truncates (q : Q) :
  exists z, to_int (Float q) = Ok (Int z) /\
    (0 <= q -> inject_Z z <= q /\ q < inject_Z z + 1)%Q /\
    (q <= 0 -> inject_Z z - 1 < q /\ q <= inject_Z z)%Q.
Proof.
  destruct q as [a b]. eexists. split; [reflexivity|].
  unfold Qle, Qlt, Qplus, Qminus, Qopp, inject_Z. simpl.
  split; intros H; split; nia.
Qed.

Lemma astype_Ok_Forall2 (cast : scalar -> exn scalar) (s s' : Series) :
  astype cast s = Ok s' -> Forall2 (fun c c' => cast c = Ok c') s s'.
Proof.
  revert s'; induction s as [|c s IH]; intros s' E; simpl in E.
  - injection E as <-. constructor.
  - destruct (cast c) as [c'|e] eqn:Ec; simpl in E; [|discriminate].
    destruct (astype cast s) as [t'|e] eqn:Et; simpl in E; [|discriminate].
    injection E as <-. constructor; auto.
Qed.

(** X11: the cast to integers succeeds on a series whose entries are all
    numbers within the range of the 64-bit integers; it keeps the length,
    and every number is replaced by the integer obtained by dropping its
    fractional part (rounding toward zero), an integer being left as it is.
    A missing value in a series of numbers and missing values makes the cast
    raise [ValueError]. *)
Theorem astype_int_truncates (s : Series) :
  (forallb fits_int64 s = true ->
   exists s', astype to_int s = Ok s' /\
     length s' = length s /\
     Forall2 (fun c c' => exists q z, to_num c = Some q /\ c' = Int z /\
        (0 <= q -> inject_Z z <= q /\ q < inject_Z z + 1)%Q /\
        (q <= 0 -> inject_Z z - 1 < q /\ q <= inject_Z z)%Q /\
        (forall k, c = Int k -> z = k)) s s') /\
  (forallb numeric s = true -> In NaN s ->
   exists msg, astype to_int s = Raise (ValueError msg)).
Proof.
  split.
  - intros Fit.
    assert (Num : forallb is_number s = true).
    { rewrite forallb_forall in *. intros c Hc. specialize (Fit c Hc).
      destruct c; simpl in Fit; try discriminate; reflexivity. }
    clear Fit.
    assert (Ex : exists s', astype to_int s = Ok s').
    { induction s as [|c s IH]; simpl; [now exists []|]. simpl in Num.
      apply andb_true_iff in Num. destruct Num as [Hc Hs].
      destruct (IH Hs) as [s' ->].
      destruct c; simpl in *; try discriminate; eexists; reflexivity. }
    destruct Ex as [s' E]. exists s'. split; [exact E|].
    apply astype_Ok_Forall2 in E.
    split; [symmetry; exact (Forall2_length E)|].
    clear Num. induction E as [|c c' s s' Hc _ IH]; constructor; auto.
    destruct c as [|q|k|t]; simpl in Hc; try discriminate.
    + destruct (to_int_truncates q) as (z & Ez & P1 & P2).
      simpl in Ez. rewrite Ez in Hc. injection Hc as <-.
      exists q, z. repeat split; auto; try apply P1; try apply P2; auto.
      discriminate.
    + injection Hc as <-. exists (inject_Z k), k.
      split; [reflexivity|]. split; [reflexivity|].
      split; [|split].
      * intros _. split; [apply Qle_refl|]. lra.
      * intros _. split; [lra | apply Qle_refl].
      * now intros j [= ->].
  - intros _. induction s as [|c s IH]; simpl; [tauto|]. intros [->|H].
    + simpl. eexists. reflexivity.
    + destruct (IH H) as [msg E]. rewrite E.
      destruct (to_int c) as [c'|[k|m|m]] eqn:Ec; simpl.
      * eexists. reflexivity.
      * destruct c; simpl in Ec; discriminate.
      * destruct c; simpl in Ec; discriminate.
      * eexists. reflexivity.
Qed.

(** *** Filtering *)





(** *** Binning: the range of the edges *)

(** X13: on at least two strictly increasing edges of magnitude at most
    2^53, with different labels, one fewer than the edges, binning a series
    of numbers and missing values gives a number (a float, or an integer of
    magnitude at most 2^53) the missing label exactly when it is below the
    first edge or not below the last one, and otherwise one of the given
    labels. *)
Theorem cut_missing_outside_range (edges : list Q) (names : list string)
    (s : Series) :
  increasing edges = true ->
  forallb moderate edges = true ->
  NoDup names ->
  length names + 1 = length edges ->
  2 <= length edges ->
  forallb representable s = true ->
  exists out, cut s edges names = Ok out /\
    forall i c x, nth_error s i = Some c -> to_num c = Some x ->
      (nth_error out i = Some NaN <->
       (x < nth 0 edges 0 \/ nth (length edges - 1) edges 0 <= x)%Q) /\
      (nth_error out i = Some NaN \/
       exists l, In l names /\ nth_error out i = Some (Obj l)).
Proof.
  intros Inc _ D Ln L2 Rep.
  pose proof (representable_numeric s Rep) as Num.
  exists (map (cut_scalar edges names) s). split; [now apply cut_Ok|].
  intros i c x E Ec. rewrite nth_error_map, E. cbn [option_map].
  pose proof (searchsorted_right_le edges x) as Le.
  pose proof (searchsorted_right_spec edges x 0 Inc ltac:(lia)) as S0.
  pose proof (searchsorted_right_spec edges x (length edges - 1) Inc ltac:(lia))
    as Sl.
  unfold cut_scalar. rewrite Ec.
  destruct (Nat.eqb_spec (searchsorted_right edges x) 0) as [E0|N0]; cbn [orb].
  - split; [|now left]. split; [|reflexivity]. intros _. left.
    apply Qnot_le_lt. intros C. apply S0 in C. lia.
  - destruct (Nat.eqb_spec (searchsorted_right edges x) (length edges))
      as [El|Nl].
    + split; [|now left]. split; [|reflexivity]. intros _. right.
      apply Sl. lia.
    + split.
      * split; [discriminate|]. intros [C|C]; exfalso.
        -- apply (Qlt_not_le _ _ C). apply S0. lia.
        -- apply Sl in C. lia.
      * right. eexists. split; [|reflexivity]. apply nth_In. lia.
Qed.

Lemma cut_missing_outside_range_witness :
  exists out, cut [Int 25; Int 50; Float (-1#1)] bins labels = Ok out /\
    forall i c x, nth_error [Int 25; Int 50; Float (-1#1)] i = Some c ->
      to_num c = Some x ->
      (nth_error out i = Some NaN <->
       (x < nth 0 bins 0 \/ nth (length bins - 1) bins 0 <= x)%Q) /\
      (nth_error out i = Some NaN \/
       exists l, In l labels /\ nth_error out i = Some (Obj l)).
Proof.
  apply (cut_missing_outside_range bins labels [Int 25; Int 50; Float (-1#1)]).
  - reflexivity.
  - reflexivity.
  - repeat constructor; simpl; intuition discriminate.
  - reflexivity.
  - simpl. lia.
  - reflexivity.
Defined.

(** *** Left join: the number of rows *)

Lemma left_join_from_length (lk rk : list scalar) (i0 : nat) :
  length (left_join_from lk rk i0)
  = list_sum (map (fun k => Nat.max 1 (length (matching_rows k rk))) lk).
Proof.
  revert i0; induction lk as [|k lk IH]; intros i0; simpl; auto.
  now rewrite length_app, join_block_length, IH.
Qed.

Lemma left_join_from_one (lk rk : list scalar) (i0 : nat) :
  (forall k, In k lk -> length (matching_rows k rk) <= 1) ->
  map fst (left_join_from lk rk i0) = seq i0 (length lk).
Proof.
  revert i0; induction lk as [|k lk IH]; intros i0 H; simpl; auto.
  rewrite map_app, IH by (intros k' Hk'; apply H; now right).
  assert (B : map fst (join_block rk i0 k) = [i0]).
  { unfold join_block. rewrite matches_matching_rows.
    specialize (H k (or_introl eq_refl)).
    destruct (matching_rows k rk) as [|j [|j' ms]]; simpl in *;
      [reflexivity | reflexivity | lia]. }
  now rewrite B.
Qed.

Lemma take_left_all (idx : list (nat * option nat)) (s : Series) :
  map fst idx = seq 0 (length s) -> take_left idx s = s.
Proof.
  intros E. unfold take_left.
  rewrite <- (map_map fst (fun i => nth i s NaN)), E. apply map_nth_seq.
Qed.

Lemma at_most_one (l : list nat) :
  NoDup l -> (forall a b, In a l -> In b l -> a = b) -> length l <= 1.
Proof.
  intros D E. destruct l as [|a [|b l]]; simpl; try lia.
  exfalso. inversion D as [|? ? Na _]. apply Na.
  rewrite (E a b); simpl; auto.
Qed.

Lemma matching_rows_unique (k : scalar) (rk : list scalar) :
  (forall j1 j2, j1 < length rk -> j2 < length rk ->
     scalar_eqb (nth j1 rk NaN) (nth j2 rk NaN) = true -> j1 = j2) ->
  length (matching_rows k rk) <= 1.
Proof.
  intros U. apply at_most_one.
  - unfold matching_rows. apply NoDup_filter, seq_NoDup.
  - intros a b Ha Hb. unfold matching_rows in Ha, Hb.
    apply filter_In in Ha, Hb. destruct Ha as [Ia Ea], Hb as [Ib Eb].
    apply in_seq in Ia, Ib. apply U; try lia.
    apply scalar_eqb_trans with k; [|assumption].
    now rewrite scalar_eqb_sym.
Qed.

Lemma shared_false (left right : DataFrame) (key n : string) :
  (forall m, In m (map fst left) -> In m (map fst right) -> m = key) ->
  shared left right key n = false.
Proof.
  intros Disj. unfold shared.
  destruct (String.eqb_spec n key) as [E|N]; [reflexivity|]. cbn [negb andb].
  destruct (existsb (String.eqb n) (map fst left)) eqn:El; [|reflexivity].
  destruct (existsb (String.eqb n) (map fst right)) eqn:Er; [|reflexivity].
  apply existsb_exists in El, Er.
  destruct El as [a [Ia Ea]], Er as [b [Ib Eb]].
  apply String.eqb_eq in Ea, Eb. subst a b. elim N. now apply Disj.
Qed.

(** Without a shared name the output holds the columns under their own
    names. *)
Lemma merge_left_plain (left right : DataFrame) (key : string)
    (lk rk : Series) :
  (forall m, In m (map fst left) -> In m (map fst right) -> m = key) ->
  getitem left key = Ok lk -> getitem right key = Ok rk ->
  merge_left left right key
  = Ok (map (fun col => (fst col, take_left (left_join_indexers lk rk) (snd col)))
          left
        ++ map (fun col => (fst col,
                            take_right (left_join_indexers lk rk) (snd col)))
             (drop_column key right)).
Proof.
  intros Disj Gl Gr. unfold merge_left. rewrite Gl, Gr. simpl.
  unfold suffixed. do 2 f_equal; apply map_ext; intros col;
    now rewrite (shared_false left right key _ Disj).
Qed.







(** X14: a left join against a table whose keys are all different, of the
    kind of the left keys, and which shares no other column name with the
    left frame, keeps the left frame as it is: the output has one row per left row, in order, and its
    first columns are the columns of the left frame, unchanged. *)
Theorem left_join_unique_right_keys (left right : DataFrame) (key : string)
    (lk rk : Series) :
  wf left ->
  getitem left key = Ok lk ->
  getitem right key = Ok rk ->
  mergeable lk rk = true ->
  (forall m, In m (map fst left) -> In m (map fst right) -> m = key) ->
  (forall j1 j2, j1 < length rk -> j2 < length rk ->
     scalar_eqb (nth j1 rk NaN) (nth j2 rk NaN) = true -> j1 = j2) ->
  map fst (left_join_indexers lk rk) = seq 0 (nrows left) /\
  exists out, merge_left left right key = Ok out /\
    firstn (length left) out = left /\
    nrows out = nrows left.
Proof.
  intros W Gl Gr _ Disj U.
  assert (Ll : length lk = nrows left).
  { apply wf_length; [assumption|]. apply getitem_Ok_In in Gl.
    apply (in_map snd) in Gl. exact Gl. }
  assert (I : map fst (left_join_indexers lk rk) = seq 0 (nrows left)).
  { unfold left_join_indexers. rewrite left_join_from_one, Ll; auto.
    intros k _. now apply matching_rows_unique. }
  split; [exact I|].
  rewrite (merge_left_plain left right key lk rk Disj Gl Gr).
  eexists. split; [reflexivity|].
  set (idx := left_join_indexers lk rk) in *.
  assert (Keep : map (fun col : string * Series =>
                        (fst col, take_left idx (snd col))) left = left).
  { transitivity (map (fun col : string * Series => col) left); [|apply map_id].
    apply map_ext_in. intros [n s] Hc. simpl. f_equal.
    apply take_left_all. rewrite I. f_equal. symmetry.
    unfold wf in W. rewrite Forall_forall in W. apply (W _ Hc). }
  rewrite Keep. split.
  - rewrite firstn_app, Nat.sub_diag, firstn_all. simpl. apply app_nil_r.
  - destruct left as [|[n s] left']; [discriminate Gl|]. reflexivity.
Qed.

Lemma left_join_unique_right_keys_witness :
  let left := rename column_names df_filled in
  let lk := [Obj "Alice"; Obj "Bob"; Obj "Charlie"; Obj "David"; Obj "Emma"] in
  let rk := [Obj "Alice"; Obj "Bob"; Obj "Charlie"] in
  map fst (left_join_indexers lk rk) = seq 0 (nrows left) /\
  exists out, merge_left left extra_data "Employee Name" = Ok out /\
    firstn (length left) out = left /\
    nrows out = nrows left.
Proof.
  apply (left_join_unique_right_keys (rename column_names df_filled)
           extra_data "Employee Name").
  - repeat constructor.
  - reflexivity.
  - reflexivity.
  - reflexivity.
  - simpl. intros m [<-|[<-|[<-|[<-|[]]]]] [E|[E|[]]]; congruence.
  - intros j1 j2 H1 H2. simpl in H1, H2.
    do 3 (destruct j1 as [|j1]; [do 3 (destruct j2 as [|j2];
      [simpl; intros E; try reflexivity; discriminate E|]); lia|]).
    lia.
Defined.

(** X15: the output of the left join on key columns of one kind never
    loses a left row: it has, for every left row, one row per matching right row and at least one, so at
    least as many rows as the left frame, and exactly as many when the right
    frame has no row. *)
Theorem left_join_row_count (left right : DataFrame) (key : string)
    (lk rk : Series) :
  wf left ->
  getitem left key = Ok lk ->
  getitem right key = Ok rk ->
  mergeable lk rk = true ->
  exists out, merge_left left right key = Ok out /\
    nrows out
    = list_sum (map (fun k => Nat.max 1 (length (matching_rows k rk))) lk) /\
    nrows left <= nrows out /\
    (rk = [] -> nrows out = nrows left).
Proof.
  intros W Gl Gr _.
  assert (Ll : length lk = nrows left).
  { apply wf_length; [assumption|]. apply getitem_Ok_In in Gl.
    apply (in_map snd) in Gl. exact Gl. }
  unfold merge_left. rewrite Gl, Gr. simpl.
  eexists. split; [reflexivity|].
  set (idx := left_join_indexers lk rk).
  assert (Li : length idx
    = list_sum (map (fun k => Nat.max 1 (length (matching_rows k rk))) lk))
    by apply left_join_from_length.
  assert (No : forall B, nrows (map (fun col : string * Series =>
      (suffixed left right key "_x" (fst col), take_left idx (snd col))) left
      ++ B) = length idx).
  { intros B. destruct left as [|[n s] left']; [discriminate Gl|]. simpl.
    unfold take_left. apply length_map. }
  rewrite No. split; [exact Li|]. split.
  - rewrite Li, <- Ll. clear. unfold list_sum.
    induction lk as [|k lk IH]; cbn [map fold_right length]; lia.
  - intros ->. rewrite Li, <- Ll. clear. unfold list_sum, matching_rows.
    induction lk as [|k lk IH]; cbn [map fold_right length seq filter] in *; lia.
Qed.

Lemma left_join_row_count_witness :
  exists out, merge_left staff postings "Employee Name" = Ok out /\
    nrows out
    = list_sum (map (fun k => Nat.max 1
                       (length (matching_rows k
                          [Obj "Alice"; Obj "Alice"; Obj "Charlie"])))
                  [Obj "Alice"; Obj "Bob"; Obj "David"]) /\
    nrows staff <= nrows out /\
    ([Obj "Alice"; Obj "Alice"; Obj "Charlie"] = [] -> nrows out = nrows staff).
Proof.
  apply (left_join_row_count staff postings "Employee Name").
  - repeat constructor.
  - reflexivity.
  - reflexivity.
  - reflexivity.
Defined.

(** *** Melt: a name that is no column *)

Lemma columns_of_app (df : DataFrame) (a b : list string) :
  columns_of df (a ++ b)
  = (x <- columns_of df a ;; y <- columns_of df b ;; Ok (x ++ y)).
Proof.
  induction a as [|n a IH]; simpl.
  - now destruct (columns_of df b).
  - destruct (getitem df n); simpl; auto. rewrite IH.
    destruct (columns_of df a); simpl; auto.
    now destruct (columns_of df b).
Qed.

Lemma columns_of_KeyError (df : DataFrame) (names : list string) :
  (exists k, columns_of df names = Raise (KeyError k))
  <-> exists n, In n names /\ ~ In n (map fst df).
Proof.
  induction names as [|n names IH]; simpl.
  - split; [intros [k E]; discriminate | intros [n [[] _]]].
  - destruct (in_dec string_dec n (map fst df)) as [I|N].
    + destruct (getitem_present df n I) as [s [G _]]. rewrite G. simpl.
      split.
      * intros [k E].
        destruct (columns_of df names) as [t|e] eqn:C; simpl in E;
          [discriminate|].
        destruct (proj1 IH (ex_intro _ k E)) as [m [Hm Nm]].
        exists m. split; [now right | assumption].
      * intros [m [[<-|Hm] Nm]]; [contradiction|].
        destruct (proj2 IH (ex_intro _ m (conj Hm Nm))) as [k E].
        exists k. now rewrite E.
    + rewrite (getitem_absent df n N). simpl. split.
      * intros _. exists n. split; [now left | assumption].
      * intros _. now exists n.
Qed.

Lemma getitem_Raise (df : DataFrame) (n : string) (e : error) :
  getitem df n = Raise e -> e = KeyError n.
Proof.
  induction df as [|[k c] df IH]; simpl; [congruence|].
  destruct (String.eqb k n); [discriminate | exact IH].
Qed.

Lemma columns_of_Raise (df : DataFrame) (names : list string) (e : error) :
  columns_of df names = Raise e -> exists k, e = KeyError k.
Proof.
  induction names as [|n names IH]; simpl; [discriminate|].
  destruct (getitem df n) as [s|e1] eqn:G; simpl.
  - destruct (columns_of df names) as [t|e2]; simpl; [discriminate|].
    intros [= <-]. now apply IH.
  - intros [= <-]. exists n. now apply getitem_Raise with df.
Qed.

(** X16: with names that are all different and at least one value name,
    on a frame that has no column named [variable] or [value], [melt]
    raises [KeyError] exactly when one of the identifier or value names is
    no column of the frame, and it raises nothing else. *)
Theorem melt_KeyError_iff (df : DataFrame) (id_vars value_vars : list string) :
  NoDup (id_vars ++ value_vars) ->
  value_vars <> [] ->
  ~ In "variable" (map fst df) ->
  ~ In "value" (map fst df) ->
  ((exists k, melt df id_vars value_vars = Raise (KeyError k))
   <-> exists n, In n (id_vars ++ value_vars) /\ ~ In n (map fst df)) /\
  (forall e, melt df id_vars value_vars = Raise e -> exists k, e = KeyError k).
Proof.
  intros _ _ _ _.
  assert (M : forall e, melt df id_vars value_vars = Raise e
                        <-> columns_of df (id_vars ++ value_vars) = Raise e).
  { intros e. unfold melt. rewrite columns_of_app.
    destruct (columns_of df id_vars) as [x|e1]; simpl;
      [|split; intros [= ->]; reflexivity].
    destruct (columns_of df value_vars) as [y|e2]; simpl;
      [|split; intros [= ->]; reflexivity].
    split; discriminate. }
  split.
  - rewrite <- columns_of_KeyError. split; intros [k E]; exists k; now apply M.
  - intros e E. apply M in E. now apply columns_of_Raise in E.
Qed.

Lemma melt_KeyError_iff_witness :
  let df := rename column_names df_filled in
  ((exists k, melt df ["Name"] ["Age"; "Annual Salary"] = Raise (KeyError k))
   <-> exists n, In n (["Name"] ++ ["Age"; "Annual Salary"])
                 /\ ~ In n (map fst df)) /\
  (forall e, melt df ["Name"] ["Age"; "Annual Salary"] = Raise e ->
     exists k, e = KeyError k).
Proof.
  apply (melt_KeyError_iff (rename column_names df_filled)
           ["Name"] ["Age"; "Annual Salary"]).
  - repeat constructor; simpl; intuition discriminate.
  - discriminate.
  - simpl. intuition discriminate.
  - simpl. intuition discriminate.
Defined.

(** *** Outliers: the quartiles and the median *)

Lemma between_quartiles_not_flagged (s : Series) (q1 q3 x : Q) :
  Q1 s = Float q1 -> Q3 s = Float q3 ->
  (q1 <= x)%Q -> (x <= q3)%Q -> flag s (Float x) = false.
Proof.
  intros E1 E3 L U.
  destruct (bounds_values s q1 q3 E1 E3) as (lo & hi & Elo & Ehi & Hlo & Hhi).
  unfold flag, gt_scalar, lt_scalar. rewrite Elo, Ehi. cbn [to_num].
  apply orb_false_iff. rewrite !Qltb_ge, Hlo, Hhi. split; lra.
Qed.

Lemma middle_one (a : Q) : middle [a] = Float (Qred a).
Proof. reflexivity. Qed.

Lemma middle_pair (a b : Q) :
  middle [a; b] = Float (fdiv (fadd a b) (2 # 1)).
Proof. reflexivity. Qed.

Lemma quartiles_and_median (s : Series) :
  valid s <> [] ->
  exists q1 m q3,
    Q1 s = Float q1 /\ median s = Float m /\ Q3 s = Float q3 /\
    (q1 <= m)%Q /\ (m <= q3)%Q.
Proof.
  intros Ne.
  destruct (Nat.le_gt_cases 3 (length (valid s))) as [H3|H2].
  - destruct (middle_between (sort (valid s)) (sort_sorted _)) as (m & Em & _).
    { intros E. pose proof (length_sort (valid s)) as L. rewrite E in L.
      simpl in L. lia. }
    fold (median s) in Em.
    destruct (median_between_new_quartiles s m (fun q => q) s H3 Em)
      as (q1 & q3 & E1 & E3 & L1 & L3).
    { now rewrite map_id. }
    { intros q. now left. }
    exists q1, m, q3. auto.
  - unfold Q1, Q3, median, quantile.
    destruct (valid s) as [|a [|b [|c l]]]; simpl in H2; try lia;
      [congruence| |].
    + cbn [sort insert_sorted].
      destruct (interpolate_one a) as [(r1 & -> & E1) (r3 & -> & E3)].
      rewrite middle_one. exists r1, (Qred a), r3.
      repeat split; rewrite ?Qred_correct, ?E1, ?E3; apply Qle_refl.
    + destruct (sort_pair a b) as (lo & hi & -> & Hlh & _).
      destruct (interpolate_pair lo hi) as [-> ->]. rewrite middle_pair.
      do 3 eexists. repeat split; unfold fdiv, fadd; rewrite !Qred_correct.
      * apply Qle_shift_div_l; lra.
      * apply Qle_shift_div_r; lra.
Qed.

(** X17: in a float column of whole numbers of magnitude at most 2^40 and
    missing values, with at least one number, the median lies between the
    first and the third quartile, so the interquartile range is not
    negative; no number between the two quartiles is flagged, and the
    median, the value written over the outliers, is itself never one. *)
Theorem median_is_no_outlier (s : Series) :
  small_integers s = true ->
  valid s <> [] ->
  exists q1 m q3,
    Q1 s = Float q1 /\ median s = Float m /\ Q3 s = Float q3 /\
    (q1 <= m)%Q /\ (m <= q3)%Q /\
    (forall x, (q1 <= x)%Q -> (x <= q3)%Q -> flag s (Float x) = false) /\
    flag s (median s) = false.
Proof.
  intros _ Ne.
  destruct (quartiles_and_median s Ne) as (q1 & m & q3 & E1 & Em & E3 & L & U).
  exists q1, m, q3. repeat split; auto.
  - intros x. now apply between_quartiles_not_flagged.
  - rewrite Em. now apply (between_quartiles_not_flagged s q1 q3).
Qed.

Lemma median_is_no_outlier_witness :
  exists q1 m q3,
    Q1 series_0_3_4_12 = Float q1 /\ median series_0_3_4_12 = Float m /\
    Q3 series_0_3_4_12 = Float q3 /\
    (q1 <= m)%Q /\ (m <= q3)%Q /\
    (forall x, (q1 <= x)%Q -> (x <= q3)%Q ->
       flag series_0_3_4_12 (Float x) = false) /\
    flag series_0_3_4_12 (median series_0_3_4_12) = false.
Proof.
  apply (median_is_no_outlier series_0_3_4_12); [reflexivity | discriminate].
Defined.

Lemma replace_clean (s : Series) :
  (forall x, In x s -> flag s x = false) -> replace_outliers s = s.
Proof.
  intros H. rewrite replace_outliers_map.
  transitivity (map (fun x : scalar => x) s); [|apply map_id].
  apply map_ext_in. intros x Hx. now rewrite (H x Hx).
Qed.

Lemma flagged_is_number (s : Series) (x : scalar) :
  flag s x = true -> is_number x = true.
Proof.
  intros H. unfold is_number. destruct (to_num x) eqn:E; auto.
  rewrite (flag_not_a_number s x E) in H. discriminate.
Qed.

(** X18: in a float column of whole numbers of magnitude at most 2^40 and
    missing values the replacement of outliers changes nothing but flagged
    numbers: a missing value stays where it is, the positions of the missing
    values are the same after as before, a column in which nothing is
    flagged is returned as it is, and so is any column with at most two
    numbers. *)
Theorem replace_outliers_only_flagged (s : Series) :
  small_integers s = true ->
  length (replace_outliers s) = length s /\
  (forall i, is_number (nth i s NaN) = false ->
     nth i (replace_outliers s) NaN = nth i s NaN) /\
  map isna (replace_outliers s) = map isna s /\
  ((forall x, In x s -> flag s x = false) -> replace_outliers s = s) /\
  (length (valid s) <= 2 -> replace_outliers s = s).
Proof.
  intros _.
  split; [rewrite replace_outliers_map; apply length_map|].
  split; [|split; [|split]].
  - intros i Hn. destruct (nth_error s i) as [x|] eqn:Ex.
    + rewrite replace_outliers_map, (nth_map_at _ NaN _ _ _ Ex).
      rewrite (nth_error_nth _ _ NaN Ex) in Hn |- *.
      destruct (flag s x) eqn:F; auto.
      apply flagged_is_number in F. congruence.
    + apply nth_error_None in Ex.
      rewrite !nth_overflow; auto.
      rewrite replace_outliers_map, length_map. exact Ex.
  - rewrite replace_outliers_map, map_map. apply map_ext_in. intros x Hx.
    destruct (flag s x) eqn:F; auto.
    assert (Hn : 3 <= length (valid s)).
    { destruct (Nat.le_gt_cases (length (valid s)) 2) as [C|C]; [|lia].
      rewrite (no_outlier_small s x Hx C) in F. discriminate. }
    destruct (quartiles_and_median s) as (q1 & m & q3 & _ & Em & _).
    { intros E. rewrite E in Hn. simpl in Hn. lia. }
    rewrite Em. apply flagged_is_number in F.
    destruct x; simpl in *; auto; discriminate.
  - apply replace_clean.
  - intros H. apply replace_clean. intros x Hx.
    now apply no_outlier_small.
Qed.

Lemma replace_outliers_only_flagged_witness :
  let s := [Float (0#1); NaN; Float (3#1); Float (4#1); Float (12#1)] in
  length (replace_outliers s) = length s /\
  (forall i, is_number (nth i s NaN) = false ->
     nth i (replace_outliers s) NaN = nth i s NaN) /\
  map isna (replace_outliers s) = map isna s /\
  ((forall x, In x s -> flag s x = false) -> replace_outliers s = s) /\
  (length (valid s) <= 2 -> replace_outliers s = s).
Proof.
  apply (replace_outliers_only_flagged
           [Float (0#1); NaN; Float (3#1); Float (4#1); Float (12#1)]).
  reflexivity.
Defined.

(** *** Sampling: the rows drawn *)

Lemma positions_Permutation (n : nat) (l : list nat) :
  positions_of n l -> Permutation l (seq 0 n).
Proof.
  intros (L & D & F). apply NoDup_Permutation_bis; auto.
  - rewrite length_seq. lia.
  - intros x Hx. rewrite Forall_forall in F. apply in_seq.
    specialize (F x Hx). lia.
Qed.

(** X19: sampling draws without replacement in the sense of multisets: the
    rows of a sample of [n <= rows] rows, together with some other rows,
    are a rearrangement of the rows of the frame; a sample of as many rows
    as the frame has is a rearrangement of the frame, and a sample of no
    row is empty. *)
Theorem sample_is_part_of_a_shuffle (rng : list nat) (n : nat)
    (df : DataFrame) :
  n <= nrows df ->
  exists out rest,
    sample rng n df = Ok out /\
    length (rows out) = n /\
    Permutation (rows out ++ rest) (rows df) /\
    (n = nrows df -> rest = []) /\
    (n = 0 -> rows out = []).
Proof.
  intros H. unfold sample. rewrite (choice_Ok rng (nrows df) n H). simpl.
  pose proof (permutation_positions rng (nrows df)) as P.
  destruct P as (L & D & F).
  set (perm := permutation rng (nrows df)) in *.
  assert (Lf : length (firstn n perm) = n) by (rewrite length_firstn; lia).
  exists (take (firstn n perm) df), (map (iloc df) (skipn n perm)).
  split; [reflexivity|].
  rewrite rows_take_all by lia.
  split; [now rewrite length_map|]. split; [|split].
  - rewrite <- map_app, firstn_skipn. unfold rows. apply Permutation_map.
    apply positions_Permutation. repeat split; assumption.
  - intros ->. rewrite <- L, skipn_all. reflexivity.
  - intros ->. reflexivity.
Qed.

Lemma sample_is_part_of_a_shuffle_witness :
  exists out rest,
    sample [3; 1; 4; 1] 2 df_filled = Ok out /\
    length (rows out) = 2 /\
    Permutation (rows out ++ rest) (rows df_filled) /\
    (2 = nrows df_filled -> rest = []) /\
    (2 = 0 -> rows out = []).
Proof.
  apply (sample_is_part_of_a_shuffle [3; 1; 4; 1] 2 df_filled).
  simpl. lia.
Defined.

(** *** Category codes and groups *)

Lemma ascii_compare_refl (a : Ascii.ascii) : Ascii.compare a a = Eq.
Proof. unfold Ascii.compare. apply N.compare_refl. Qed.

Lemma ascii_compare_lt_trans (a b c : Ascii.ascii) :
  Ascii.compare a b = Lt -> Ascii.compare b c = Lt -> Ascii.compare a c = Lt.
Proof.
  unfold Ascii.compare. rewrite !N.compare_lt_iff. apply N.lt_trans.
Qed.

Lemma string_compare_refl (s : string) : String.compare s s = Eq.
Proof.
  induction s as [|a s IH]; simpl; auto. now rewrite ascii_compare_refl.
Qed.

Lemma string_compare_lt_trans (s1 s2 s3 : string) :
  String.compare s1 s2 = Lt -> String.compare s2 s3 = Lt ->
  String.compare s1 s3 = Lt.
Proof.
  revert s2 s3; induction s1 as [|a s1 IH]; intros [|b s2] [|c s3]; simpl;
    try discriminate; auto.
  destruct (Ascii.compare a b) eqn:Eab; try discriminate;
    destruct (Ascii.compare b c) eqn:Ebc; try discriminate; intros H1 H2.
  - apply Ascii.compare_eq_iff in Eab, Ebc. subst.
    rewrite ascii_compare_refl. now apply (IH s2).
  - apply Ascii.compare_eq_iff in Eab. subst. now rewrite Ebc.
  - apply Ascii.compare_eq_iff in Ebc. subst. now rewrite Eab.
  - now rewrite (ascii_compare_lt_trans a b c).
Qed.

Lemma string_compare_gt_lt (s1 s2 : string) :
  String.compare s1 s2 = Gt -> String.compare s2 s1 = Lt.
Proof.
  intros H. rewrite String.compare_antisym, H. reflexivity.
Qed.

Lemma insert_unique_In (x y : string) (l : list string) :
  In y (insert_unique x l) <-> y = x \/ In y l.
Proof.
  induction l as [|z l IH]; simpl; [intuition|].
  destruct (String.compare x z) eqn:E; simpl.
  - apply String.compare_eq_iff in E. subst. intuition.
  - intuition.
  - rewrite IH. intuition.
Qed.

Lemma insert_unique_ascending (x : string) (l : list string) :
  ascending l -> ascending (insert_unique x l).
Proof.
  induction 1 as [|z l Srt IH F]; simpl.
  - repeat constructor.
  - destruct (String.compare x z) eqn:E.
    + now constructor.
    + constructor; [now constructor|]. constructor; [assumption|].
      eapply Forall_impl; [|exact F]. intros w Hw.
      now apply string_compare_lt_trans with z.
    + constructor; [assumption|]. apply Forall_forall. intros w Hw.
      apply insert_unique_In in Hw. destruct Hw as [->|Hw].
      * now apply string_compare_gt_lt.
      * rewrite Forall_forall in F. now apply F.
Qed.

Lemma categories_ascending (s : Series) : ascending (categories s).
Proof.
  unfold categories. induction (strings s) as [|t l IH]; simpl.
  - constructor.
  - now apply insert_unique_ascending.
Qed.

Lemma strings_In (s : Series) (t : string) : In t (strings s) <-> In (Obj t) s.
Proof.
  induction s as [|c s IH]; simpl; [tauto|].
  destruct c; simpl; rewrite IH; intuition; try discriminate.
  - left. congruence.
  - left. congruence.
Qed.

Lemma categories_In (s : Series) (t : string) :
  In t (categories s) <-> In (Obj t) s.
Proof.
  rewrite <- strings_In. unfold categories.
  induction (strings s) as [|u l IH]; simpl; [tauto|].
  rewrite insert_unique_In, IH. intuition.
Qed.

Lemma ascending_NoDup (l : list string) : ascending l -> NoDup l.
Proof.
  induction 1 as [|z l Srt IH F]; constructor; auto.
  intros I. rewrite Forall_forall in F. specialize (F z I).
  rewrite string_compare_refl in F. discriminate.
Qed.

Lemma ascending_nth (l : list string) (i j : nat) :
  ascending l -> i < j -> j < length l ->
  String.compare (nth i l "") (nth j l "") = Lt.
Proof.
  intros Srt; revert i j; induction Srt as [|z l Srt IH F]; intros i j Hij Hj;
    simpl in Hj; [lia|].
  destruct j as [|j]; [lia|]. destruct i as [|i]; simpl.
  - rewrite Forall_forall in F. apply F, nth_In. lia.
  - apply IH; lia.
Qed.

Lemma index_of_found (x : string) (l : list string) :
  In x l -> index_of x l < length l /\ nth (index_of x l) l "" = x.
Proof.
  induction l as [|y l IH]; simpl; [tauto|]. intros H.
  destruct (String.eqb_spec x y) as [->|N].
  - split; [lia | reflexivity].
  - destruct H as [H|H]; [congruence|]. destruct (IH H). split; [lia|assumption].
Qed.

(** X20: the category codes of a column of strings.  The categories are
    the different strings of the column in strictly ascending order; the
    code of a string is its position among them, so that looking the code up
    in the categories gives the string back; two strings have the same code
    exactly when they are equal, and the smaller code exactly when they are
    smaller; a missing value has the code -1. *)
Theorem cat_codes_order (s : Series) :
  forallb is_label s = true ->
  ascending (categories s) /\
  NoDup (categories s) /\
  (forall t, In t (categories s) <-> In (Obj t) s) /\
  length (cat_codes s) = length s /\
  (forall i, nth_error s i = Some NaN -> nth_error (cat_codes s) i = Some (Int (-1))) /\
  (forall i t, nth_error s i = Some (Obj t) ->
     exists k, nth_error (cat_codes s) i = Some (Int (Z.of_nat k)) /\
       k < length (categories s) /\ nth k (categories s) "" = t) /\
  (forall i j t u ki kj,
     nth_error s i = Some (Obj t) -> nth_error s j = Some (Obj u) ->
     nth_error (cat_codes s) i = Some (Int ki) ->
     nth_error (cat_codes s) j = Some (Int kj) ->
     (ki = kj <-> t = u) /\ ((ki < kj)%Z <-> String.compare t u = Lt)).
Proof.
  intros _.
  pose proof (categories_ascending s) as Srt.
  assert (Code : forall i t, nth_error s i = Some (Obj t) ->
     nth_error (cat_codes s) i
     = Some (Int (Z.of_nat (index_of t (categories s)))) /\
     index_of t (categories s) < length (categories s) /\
     nth (index_of t (categories s)) (categories s) "" = t).
  { intros i t E. split.
    - unfold cat_codes. now rewrite nth_error_map, E.
    - apply index_of_found, categories_In. now apply nth_error_In with i. }
  split; [exact Srt|]. split; [now apply ascending_NoDup|].
  split; [apply categories_In|]. split; [apply length_map|].
  split; [|split].
  - intros i E. unfold cat_codes. now rewrite nth_error_map, E.
  - intros i t E. destruct (Code i t E) as (C & L & N). eauto.
  - intros i j t u ki kj Ei Ej Ci Cj.
    destruct (Code i t Ei) as (Ci' & Li & Ni).
    destruct (Code j u Ej) as (Cj' & Lj & Nj).
    rewrite Ci' in Ci. rewrite Cj' in Cj.
    injection Ci as <-. injection Cj as <-.
    set (a := index_of t (categories s)) in *.
    set (b := index_of u (categories s)) in *.
    split; split.
    + intros E. apply Nat2Z.inj in E. rewrite <- Ni, <- Nj. now rewrite E.
    + intros ->. reflexivity.
    + intros H. rewrite <- Ni, <- Nj. apply ascending_nth; auto. lia.
    + intros H. destruct (Nat.lt_trichotomy a b) as [L|[E|G]]; [lia| |].
      * rewrite <- Ni, <- Nj, E, string_compare_refl in H. discriminate.
      * assert (C : String.compare u t = Lt).
        { rewrite <- Ni, <- Nj. apply ascending_nth; auto. }
        rewrite String.compare_antisym, C in H. discriminate.
Qed.

Lemma cat_codes_order_witness :
  let s := [Obj "New York"; Obj "Los Angeles"; Obj "Chicago"; Obj "Chicago";
            Obj "New York"] in
  ascending (categories s) /\
  NoDup (categories s) /\
  (forall t, In t (categories s) <-> In (Obj t) s) /\
  length (cat_codes s) = length s /\
  (forall i, nth_error s i = Some NaN -> nth_error (cat_codes s) i = Some (Int (-1))) /\
  (forall i t, nth_error s i = Some (Obj t) ->
     exists k, nth_error (cat_codes s) i = Some (Int (Z.of_nat k)) /\
       k < length (categories s) /\ nth k (categories s) "" = t) /\
  (forall i j t u ki kj,
     nth_error s i = Some (Obj t) -> nth_error s j = Some (Obj u) ->
     nth_error (cat_codes s) i = Some (Int ki) ->
     nth_error (cat_codes s) j = Some (Int kj) ->
     (ki = kj <-> t = u) /\ ((ki < kj)%Z <-> String.compare t u = Lt)).
Proof.
  apply (cat_codes_order
           [Obj "New York"; Obj "Los Angeles"; Obj "Chicago"; Obj "Chicago";
            Obj "New York"]).
  reflexivity.
Defined.

Lemma count_key_sum (keys : list string) (t : string) :
  NoDup keys -> In t keys ->
  list_sum (map (fun k => if String.eqb t k then 1 else 0) keys) = 1.
Proof.
  induction 1 as [|k keys Nk D IH]; simpl; [tauto|]. intros [->|H].
  - rewrite String.eqb_refl.
    assert (Z : list_sum (map (fun k => if String.eqb t k then 1 else 0) keys) = 0).
    { clear IH D. induction keys as [|k keys IH]; simpl; auto.
      destruct (String.eqb_spec t k) as [->|N]; [exfalso; apply Nk; now left|].
      apply IH. intros I. apply Nk. now right. }
    now rewrite Z.
  - destruct (String.eqb_spec t k) as [->|N]; [contradiction|].
    now rewrite IH.
Qed.

Lemma list_sum_map_add {A : Type} (f g : A -> nat) (l : list A) :
  list_sum (map (fun x => f x + g x) l) = list_sum (map f l) + list_sum (map g l).
Proof. induction l as [|x l IH]; simpl; auto. rewrite IH. lia. Qed.

Lemma list_sum_map_zero {A : Type} (l : list A) :
  list_sum (map (fun _ => 0) l) = 0.
Proof. induction l; simpl; auto. Qed.

Lemma group_values_cons (c v : scalar) (ks vs : Series) (k : string) :
  length (group_values (c :: ks) (v :: vs) k)
  = (if scalar_eqb c (Obj k) then 1 else 0) + length (group_values ks vs k).
Proof.
  unfold group_values. simpl. now destruct (scalar_eqb c (Obj k)).
Qed.

(** The groups of a list of keys that holds every string of the key column
    once share out the rows that have a key. *)
Lemma groups_partition (keys : list string) (ks vs : Series) :
  NoDup keys -> (forall t, In (Obj t) ks -> In t keys) ->
  forallb is_label ks = true -> length vs = length ks ->
  list_sum (map (fun k => length (group_values ks vs k)) keys)
  = length (strings ks).
Proof.
  intros D. revert vs; induction ks as [|c ks IH]; intros vs Hin Lab L.
  - unfold group_values. simpl. apply list_sum_map_zero.
  - destruct vs as [|v vs]; [discriminate|]. simpl in L, Lab.
    apply andb_true_iff in Lab. destruct Lab as [Lc Lab].
    rewrite (map_ext _ _ (group_values_cons c v ks vs)), list_sum_map_add.
    rewrite IH; auto; [|intros t Ht; apply Hin; now right].
    destruct c as [| | |t]; simpl in Lc; try discriminate; simpl.
    + now rewrite list_sum_map_zero.
    + rewrite (count_key_sum keys t D); [reflexivity|]. apply Hin. now left.
Qed.

Lemma select_filter_combine (f : scalar -> bool) (ks vs : Series) :
  length vs = length ks ->
  select (map f ks) vs = map snd (filter (fun p => f (fst p)) (combine ks vs)).
Proof.
  revert vs; induction ks as [|c ks IH]; intros [|v vs] L; simpl in *;
    try reflexivity; try discriminate.
  injection L as L. rewrite (IH vs L). now destruct (f c).
Qed.

Lemma group_not_empty (k : string) (ks vs : Series) :
  length vs = length ks -> In (Obj k) ks ->
  1 <= length (group_values ks vs k).
Proof.
  unfold group_values.
  revert vs; induction ks as [|c ks IH]; intros [|v vs] L H; simpl in *;
    try tauto; try discriminate.
  injection L as L. destruct H as [->|H].
  - cbn [scalar_eqb]. rewrite String.eqb_refl. simpl. lia.
  - destruct (scalar_eqb c (Obj k)); simpl; [lia | now apply IH].
Qed.

(** X21: grouping by a key column of strings and missing values, with a
    value column of numbers and missing values, gives one group per
    different key of the column, in strictly ascending order of the keys;
    a group holds the values of the rows with its key, in the order of the
    rows, and has at least one; the groups share out the rows that have a
    key (a row with a missing key is in no group); the means are one entry
    per group, under the keys of the groups in the same order, and the
    entry of a group without a number is missing. *)
Theorem groupby_mean_groups (df : DataFrame) (key value : string)
    (ks vs : Series) :
  wf df ->
  getitem df key = Ok ks ->
  getitem df value = Ok vs ->
  forallb is_label ks = true ->
  forallb numeric vs = true ->
  exists groups means,
    groupby df key value = Ok groups /\
    groupby_mean df key value = Ok means /\
    map fst means = map fst groups /\
    ascending (map fst groups) /\
    (forall t, In t (map fst groups) <-> In (Obj t) ks) /\
    (forall t g, In (t, g) groups ->
       g = map snd (filter (fun p => scalar_eqb (fst p) (Obj t))
                      (combine ks vs)) /\
       1 <= length g /\
       (valid g = [] -> In (t, NaN) means)) /\
    list_sum (map (fun e => length (snd e)) groups) = length (strings ks).
Proof.
  intros W Gk Gv Lab _. unfold groupby_mean, groupby. rewrite Gk, Gv. simpl.
  eexists. eexists. split; [reflexivity|]. split; [reflexivity|].
  assert (Lk : length ks = nrows df).
  { apply wf_length; [assumption|]. apply getitem_Ok_In in Gk.
    apply (in_map snd) in Gk. exact Gk. }
  assert (Lv : length vs = nrows df).
  { apply wf_length; [assumption|]. apply getitem_Ok_In in Gv.
    apply (in_map snd) in Gv. exact Gv. }
  assert (L : length vs = length ks) by lia.
  assert (Names : map fst (map (fun k => (k, group_values ks vs k))
                             (categories ks)) = categories ks).
  { rewrite map_map. apply map_id. }
  rewrite Names.
  split; [rewrite !map_map; simpl; apply map_id|].
  split; [apply categories_ascending|]. split; [apply categories_In|].
  split.
  - intros t g H. apply in_map_iff in H. destruct H as [k [[= <- <-] Hk]].
    split; [unfold group_values; now apply select_filter_combine|].
    split; [apply group_not_empty; [exact L | now apply categories_In]|].
    intros E. apply in_map_iff. exists (k, group_values ks vs k).
    split; [|apply in_map_iff; now exists k].
    simpl. unfold mean. now rewrite E.
  - rewrite map_map. simpl. apply groups_partition; [| |assumption|exact L].
    + apply ascending_NoDup, categories_ascending.
    + intros t. apply categories_In.
Qed.

Lemma groupby_mean_groups_witness :
  let ks := [Obj "New York"; Obj "Los Angeles"; Obj "Chicago"; Obj "Chicago";
             Obj "New York"] in
  let vs := salary_filled in
  exists groups means,
    groupby df_filled "City" "Salary" = Ok groups /\
    groupby_mean df_filled "City" "Salary" = Ok means /\
    map fst means = map fst groups /\
    ascending (map fst groups) /\
    (forall t, In t (map fst groups) <-> In (Obj t) ks) /\
    (forall t g, In (t, g) groups ->
       g = map snd (filter (fun p => scalar_eqb (fst p) (Obj t))
                      (combine ks vs)) /\
       1 <= length g /\
       (valid g = [] -> In (t, NaN) means)) /\
    list_sum (map (fun e => length (snd e)) groups) = length (strings ks).
Proof.
  apply (groupby_mean_groups df_filled "City" "Salary").
  - repeat constructor.
  - reflexivity.
  - reflexivity.
  - reflexivity.
  - reflexivity.
Defined.

(** *** Casting to float and back *)

Lemma astype_float_int (s : Series) :
  forallb (fun c => match c with Int _ => true | _ => false end) s = true ->
  (s' <- astype to_float s ;; astype to_int s') = Ok s.
Proof.
  induction s as [|c s IH]; simpl; auto. intros H.
  apply andb_true_iff in H. destruct H as [Hc Hs]. specialize (IH Hs).
  destruct c as [| |z|]; try discriminate. simpl.
  destruct (astype to_float s) as [s'|e]; simpl in *; [|discriminate].
  rewrite IH. simpl. now rewrite ?Z.mul_1_r, Z.quot_1_r.
Qed.

(** X22: the cast to float succeeds on a series of missing values, floats
    and integers of magnitude at most 2^53; it keeps the length, the
    missing values and the value of every number; and such a series of
    integers cast to float and then to integer is the series again. *)
Theorem astype_float_keeps_values (s : Series) :
  forallb representable s = true ->
  (exists s', astype to_float s = Ok s' /\
     length s' = length s /\ map to_num s' = map to_num s /\
     map isna s' = map isna s) /\
  (forallb (fun c => match c with Int _ => true | _ => false end) s = true ->
   (s' <- astype to_float s ;; astype to_int s') = Ok s).
Proof.
  intros Rep. split; [|apply astype_float_int].
  assert (Num : forallb numeric s = true).
  { rewrite forallb_forall in *. intros c Hc. specialize (Rep c Hc).
    destruct c; simpl in Rep; try discriminate; reflexivity. }
  clear Rep.
  assert (Ex : exists s', astype to_float s = Ok s').
  { induction s as [|c s IH]; simpl; [now exists []|]. simpl in Num.
    apply andb_true_iff in Num. destruct Num as [Hc Hs].
    destruct (IH Hs) as [s' ->].
    destruct c; simpl in *; try discriminate; eexists; reflexivity. }
  destruct Ex as [s' E]. exists s'. split; [exact E|].
  apply astype_Ok_Forall2 in E.
  split; [symmetry; exact (Forall2_length E)|].
  clear Num. induction E as [|c c' s s' Hc _ [IH1 IH2]]; simpl; auto.
  rewrite IH1, IH2.
  destruct c; simpl in Hc; try discriminate; injection Hc as <-; auto.
Qed.

Lemma astype_float_keeps_values_witness :
  let s := [Int 25; Int 32; Int 35] in
  (exists s', astype to_float s = Ok s' /\
     length s' = length s /\ map to_num s' = map to_num s /\
     map isna s' = map isna s) /\
  (forallb (fun c => match c with Int _ => true | _ => false end) s = true ->
   (s' <- astype to_float s ;; astype to_int s') = Ok s).
Proof.
  apply (astype_float_keeps_values [Int 25; Int 32; Int 35]). reflexivity.
Defined.

(** *** Melt keeps every value *)






(** *** Frames without duplicates *)

Lemma select_length_le {A : Type} (mask : list bool) (l : list A) :
  length (select mask l) <= length l.
Proof.
  revert l; induction mask as [|b m IH]; intros [|y l]; simpl; try lia.
  specialize (IH l). destruct b; simpl; lia.
Qed.

(** X24: deduplication never adds a row, and a frame in which no row has an
    equal row before it is returned as it is. *)
Theorem drop_duplicates_without_duplicates (df : DataFrame) :
  wf df ->
  nrows (df_drop_duplicates df) <= nrows df /\
  ((forall i, has_earlier_equal row_eqb (rows df) i = false) ->
   df_drop_duplicates df = df).
Proof.
  intros W. split.
  - rewrite <- !length_rows, (rows_df_drop_duplicates df W).
    apply select_length_le.
  - intros H. unfold df_drop_duplicates, df_duplicated.
    rewrite (duplicated_spec row_eqb row_eqb_trans), map_map.
    rewrite map_all_true by (intros i _; now rewrite H).
    rewrite length_seq, length_rows. now apply select_rows_all.
Qed.

Lemma drop_duplicates_without_duplicates_witness :
  nrows (df_drop_duplicates df_filled) <= nrows df_filled /\
  ((forall i, has_earlier_equal row_eqb (rows df_filled) i = false) ->
   df_drop_duplicates df_filled = df_filled).
Proof.
  apply (drop_duplicates_without_duplicates df_filled). repeat constructor.
Defined.
